(** * Book Finder: the query, merge, filter, sort and pagination logic of
    [src/App.jsx], embedded as Rocq functions, and the properties its
    specification states about them.

    Conventions of the embedding.
    - A JavaScript object read through optional properties is a record of
      [option] fields: [None] is a property that is absent ([undefined]).
    - A JavaScript number holding an integer is a [Z]; [NaN] (the result of a
      failed [parseInt]) is [None] in [option Z]. Integers are exact: the
      rounding of numbers beyond 2^53 is not modelled.
    - A string is a [string] of bytes (the UTF-8 encoding of the text); the
      white space beyond ASCII is recognised by its UTF-8 bytes.
    - React state is a record [AppState]; an event handler is a function from
      state to state, and the awaited network call of [fetchPage] is split
      into the part before the [await] and the part after it. *)

From stdpp Require Import gmap strings list pretty sorting.
From Stdlib Require Import ZArith Lia Ascii.

Local Open Scope Z_scope.
Set Warnings "-clear-no-such-hyp".

(** ** Host primitives *)

(** [a || b] on strings: the empty string is the only falsy string. *)
Definition str_or (a b : string) : string :=
  if decide (a = "") then b else a.

(** [a || b] on a possibly absent number: absent and [0] are falsy. *)
Definition num_or (a : option Z) (b : Z) : Z :=
  match a with
  | Some n => if decide (n = 0) then b else n
  | None => b
  end.

(** The white space [String.prototype.trim] and [parseInt] skip, as it is
    written in UTF-8. In one byte: tab, line feed, vertical tab, form feed,
    carriage return and space. *)
Definition is_space (c : ascii) : bool :=
  let n := Z.of_N (Ascii.N_of_ascii c) in
  ((9 <=? n) && (n <=? 13)) || (n =? 32).

(** In two bytes: U+00A0 (C2 A0). *)
Definition is_space2 (a b : ascii) : bool :=
  let x := Z.of_N (Ascii.N_of_ascii a) in
  let y := Z.of_N (Ascii.N_of_ascii b) in
  (x =? 194) && (y =? 160).

(** In three bytes: U+1680 (E1 9A 80), U+2000 to U+200A (E2 80 80 to 8A),
    U+2028, U+2029 and U+202F (E2 80 A8, A9, AF), U+205F (E2 81 9F),
    U+3000 (E3 80 80) and U+FEFF (EF BB BF). *)
Definition is_space3 (a b c : ascii) : bool :=
  let x := Z.of_N (Ascii.N_of_ascii a) in
  let y := Z.of_N (Ascii.N_of_ascii b) in
  let z := Z.of_N (Ascii.N_of_ascii c) in
  ((x =? 225) && (y =? 154) && (z =? 128))
  || ((x =? 226) && (y =? 128)
      && (((128 <=? z) && (z <=? 138)) || (z =? 168) || (z =? 169) || (z =? 175)))
  || ((x =? 226) && (y =? 129) && (z =? 159))
  || ((x =? 227) && (y =? 128) && (z =? 128))
  || ((x =? 239) && (y =? 187) && (z =? 191)).

Definition is_digit (c : ascii) : bool :=
  let n := Z.of_N (Ascii.N_of_ascii c) in
  (48 <=? n) && (n <=? 57).

(** [s.trimStart()]: the string from its first character that is no white
    space. *)
Fixpoint trimStart (s : string) : string :=
  match s with
  | String c r =>
      if is_space c then trimStart r
      else
        match r with
        | String c2 r2 =>
            if is_space2 c c2 then trimStart r2
            else
              match r2 with
              | String c3 r3 => if is_space3 c c2 c3 then trimStart r3 else s
              | EmptyString => s
              end
        | EmptyString => s
        end
  | EmptyString => EmptyString
  end.

(** [s] is white space from end to end. *)
Fixpoint all_space (s : string) : bool :=
  match s with
  | String c r =>
      if is_space c then all_space r
      else
        match r with
        | String c2 r2 =>
            if is_space2 c c2 then all_space r2
            else
              match r2 with
              | String c3 r3 => is_space3 c c2 c3 && all_space r3
              | EmptyString => false
              end
        | EmptyString => false
        end
  | EmptyString => true
  end.

(** [s.trimEnd()]: the string without the white space it ends with. *)
Fixpoint trimEnd (s : string) : string :=
  match s with
  | String c r => if all_space s then EmptyString else String c (trimEnd r)
  | EmptyString => EmptyString
  end.

(** [s.trim()] *)
Definition trim (s : string) : string := trimEnd (trimStart s).

(** The value of the longest prefix of decimal digits, read left to right. *)
Fixpoint digits_value (acc : Z) (s : string) : Z :=
  match s with
  | String c r =>
      if is_digit c
      then digits_value (10 * acc + (Z.of_N (Ascii.N_of_ascii c) - 48)) r
      else acc
  | EmptyString => acc
  end.

(** [parseInt(s, 10)]: leading white space is skipped, one sign is read, then
    the longest run of digits; no digit at all gives [NaN]. *)
Definition parseInt (s : string) : option Z :=
  let t := trimStart s in
  let '(sign, body) :=
    match t with
    | String "-" r => (-1, r)
    | String "+" r => (1, r)
    | _ => (1, t)
    end in
  match body with
  | String c _ => if is_digit c then Some (sign * digits_value 0 body) else None
  | EmptyString => None
  end.

(** [a <= b] on numbers: false as soon as one side is [NaN]. *)
Definition num_le (a b : option Z) : Prop :=
  match a, b with
  | Some x, Some y => x ≤ y
  | _, _ => False
  end.

#[global] Instance num_le_dec a b : Decision (num_le a b).
Proof. destruct a, b; simpl; apply _. Defined.

(** [Math.ceil(n / d)] for integers [n] and [d > 0]. *)
Definition ceil_div (n d : Z) : Z := - ((- n) / d).

(** [arr.slice(start, end)], relative (negative) indices included. *)
Definition slice {A} (arr : list A) (start end_ : Z) : list A :=
  let len := Z.of_nat (length arr) in
  let k := if start <? 0 then Z.max (len + start) 0 else Z.min start len in
  let final := if end_ <? 0 then Z.max (len + end_) 0 else Z.min end_ len in
  take (Z.to_nat (final - k)) (drop (Z.to_nat k) arr).

(** [Array.prototype.sort(cmp)] is a stable sort; with a consistent
    comparator its result is fixed by that, and it is modelled by the stable
    insertion sort: [x] is put before the first element it does not
    exceed. *)
Fixpoint sort_insert {A} (cmp : A → A → Z) (x : A) (l : list A) : list A :=
  match l with
  | [] => [x]
  | y :: r => if decide (cmp x y ≤ 0) then x :: y :: r else y :: sort_insert cmp x r
  end.

Definition sortBy {A} (cmp : A → A → Z) (arr : list A) : list A :=
  foldr (sort_insert cmp) [] arr.

(** *** URLSearchParams *)

Definition hex_digit (n : N) : ascii :=
  Ascii.ascii_of_N (if (n <? 10)%N then 48 + n else 55 + n)%N.

(** The bytes the form-urlencoded serializer leaves as they are:
    letters, digits and [*-._]. *)
Definition form_safe (c : ascii) : bool :=
  let n := Z.of_N (Ascii.N_of_ascii c) in
  is_digit c
  || ((65 <=? n) && (n <=? 90))
  || ((97 <=? n) && (n <=? 122))
  || (n =? 42) || (n =? 45) || (n =? 46) || (n =? 95).

Fixpoint form_encode (s : string) : string :=
  match s with
  | EmptyString => EmptyString
  | String c r =>
      if form_safe c then String c (form_encode r)
      else if decide (c = " "%char) then String "+" (form_encode r)
      else
        let n := Ascii.N_of_ascii c in
        String "%" (String (hex_digit (n / 16)) (String (hex_digit (n mod 16))
          (form_encode r)))
  end.

(** The parameter list: names with their values, in insertion order. *)
Definition URLSearchParams : Type := list (string * string).

(** [params.set(name, value)]: the first pair of that name takes the value
    and the later ones go; a new name is appended. *)
Fixpoint params_set (name value : string) (ps : URLSearchParams) : URLSearchParams :=
  match ps with
  | [] => [(name, value)]
  | (k, v) :: r =>
      if decide (k = name)
      then (name, value) :: filter (λ kv, kv.1 ≠ name) r
      else (k, v) :: params_set name value r
  end.

(** [params.toString()] *)
Fixpoint params_toString (ps : URLSearchParams) : string :=
  match ps with
  | [] => ""
  | [(k, v)] => form_encode k +:+ "=" +:+ form_encode v
  | (k, v) :: r => form_encode k +:+ "=" +:+ form_encode v +:+ "&" +:+ params_toString r
  end.

(** [xs.join(sep)] *)
Fixpoint join (sep : string) (xs : list string) : string :=
  match xs with
  | [] => ""
  | [x] => x
  | x :: r => x +:+ sep +:+ join sep r
  end.

(** ** Data model *)

(** A record of the search response, and the object [toggleFav] stores: every
    property is optional. [__id] is the property [fetchPage] adds. *)
Record Doc := {
  key : option string;
  title : option string;
  author_name : option (list string);
  first_publish_year : option Z;
  cover_i : option Z;
  edition_key : option (list string);
  language : option (list string);
  subject : option (list string);
  isbn : option (list string);
  __id : option string;
}.

#[global] Instance Doc_eq_dec : EqDecision Doc.
Proof. solve_decision. Defined.

(** The parsed body of a search response: [{ docs, numFound }]. *)
Record SearchData := {
  data_docs : option (list Doc);
  data_numFound : option Z;
}.

(** How the awaited part of [fetchPage] can fail, with what the thrown error
    carries. *)
Inductive Failure :=
  | FetchRejected (message : string)   (* fetch() itself rejected *)
  | HttpStatus (status : Z)            (* res.ok is false *)
  | JsonParseFailed (message : string) (* res.json() rejected *)
  | BodyUnreadable (message : string)  (* reading data.docs threw *).

Inductive FetchOutcome :=
  | Failed (f : Failure)
  | Body (data : SearchData).

Record AppState := {
  mode : string;
  query : string;
  docs : list Doc;
  numFound : Z;
  apiPage : Z;
  loading : bool;
  error : string;
  uiPage : Z;
  sort : string;
  lang : string;
  yearFrom : string;
  yearTo : string;
  showFav : bool;
  selected : option Doc;
  favs : list Doc;
}.

(** ** Utilities of App.jsx *)

Definition PER_PAGE : Z := 20.
Definition OPENLIB_BASE : string := "https://openlibrary.org".

(** [uniqueBy(arr, key)]: [seen] is the [Set] the filter's callback reads and
    grows; an element is kept when its key was not seen yet. *)
Fixpoint uniqueBy_from {A K} `{Countable K} (key : A → K) (seen : gset K)
    (arr : list A) : list A :=
  match arr with
  | [] => []
  | x :: rest =>
      if decide (key x ∈ seen) then uniqueBy_from key seen rest
      else x :: uniqueBy_from key ({[key x]} ∪ seen) rest
  end.

Definition uniqueBy {A K} `{Countable K} (arr : list A) (key : A → K) : list A :=
  uniqueBy_from key ∅ arr.

(** ** State setters

    [setX v s] is the state after React applies [setX(v)] to [s]. *)

Definition setMode (v : string) (s : AppState) : AppState :=
  {| mode := v; query := query s; docs := docs s; numFound := numFound s;
     apiPage := apiPage s; loading := loading s; error := error s;
     uiPage := uiPage s; sort := sort s; lang := lang s;
     yearFrom := yearFrom s; yearTo := yearTo s; showFav := showFav s;
     selected := selected s; favs := favs s |}.

Definition setQuery (v : string) (s : AppState) : AppState :=
  {| mode := mode s; query := v; docs := docs s; numFound := numFound s;
     apiPage := apiPage s; loading := loading s; error := error s;
     uiPage := uiPage s; sort := sort s; lang := lang s;
     yearFrom := yearFrom s; yearTo := yearTo s; showFav := showFav s;
     selected := selected s; favs := favs s |}.

Definition setDocs (v : list Doc) (s : AppState) : AppState :=
  {| mode := mode s; query := query s; docs := v; numFound := numFound s;
     apiPage := apiPage s; loading := loading s; error := error s;
     uiPage := uiPage s; sort := sort s; lang := lang s;
     yearFrom := yearFrom s; yearTo := yearTo s; showFav := showFav s;
     selected := selected s; favs := favs s |}.

Definition setNumFound (v : Z) (s : AppState) : AppState :=
  {| mode := mode s; query := query s; docs := docs s; numFound := v;
     apiPage := apiPage s; loading := loading s; error := error s;
     uiPage := uiPage s; sort := sort s; lang := lang s;
     yearFrom := yearFrom s; yearTo := yearTo s; showFav := showFav s;
     selected := selected s; favs := favs s |}.

Definition setApiPage (v : Z) (s : AppState) : AppState :=
  {| mode := mode s; query := query s; docs := docs s; numFound := numFound s;
     apiPage := v; loading := loading s; error := error s; uiPage := uiPage s;
     sort := sort s; lang := lang s; yearFrom := yearFrom s;
     yearTo := yearTo s; showFav := showFav s; selected := selected s;
     favs := favs s |}.

Definition setLoading (v : bool) (s : AppState) : AppState :=
  {| mode := mode s; query := query s; docs := docs s; numFound := numFound s;
     apiPage := apiPage s; loading := v; error := error s; uiPage := uiPage s;
     sort := sort s; lang := lang s; yearFrom := yearFrom s;
     yearTo := yearTo s; showFav := showFav s; selected := selected s;
     favs := favs s |}.

Definition setError (v : string) (s : AppState) : AppState :=
  {| mode := mode s; query := query s; docs := docs s; numFound := numFound s;
     apiPage := apiPage s; loading := loading s; error := v;
     uiPage := uiPage s; sort := sort s; lang := lang s;
     yearFrom := yearFrom s; yearTo := yearTo s; showFav := showFav s;
     selected := selected s; favs := favs s |}.

Definition setUiPage (v : Z) (s : AppState) : AppState :=
  {| mode := mode s; query := query s; docs := docs s; numFound := numFound s;
     apiPage := apiPage s; loading := loading s; error := error s; uiPage := v;
     sort := sort s; lang := lang s; yearFrom := yearFrom s;
     yearTo := yearTo s; showFav := showFav s; selected := selected s;
     favs := favs s |}.

Definition setSort (v : string) (s : AppState) : AppState :=
  {| mode := mode s; query := query s; docs := docs s; numFound := numFound s;
     apiPage := apiPage s; loading := loading s; error := error s;
     uiPage := uiPage s; sort := v; lang := lang s; yearFrom := yearFrom s;
     yearTo := yearTo s; showFav := showFav s; selected := selected s;
     favs := favs s |}.

Definition setLang (v : string) (s : AppState) : AppState :=
  {| mode := mode s; query := query s; docs := docs s; numFound := numFound s;
     apiPage := apiPage s; loading := loading s; error := error s;
     uiPage := uiPage s; sort := sort s; lang := v; yearFrom := yearFrom s;
     yearTo := yearTo s; showFav := showFav s; selected := selected s;
     favs := favs s |}.

Definition setYearFrom (v : string) (s : AppState) : AppState :=
  {| mode := mode s; query := query s; docs := docs s; numFound := numFound s;
     apiPage := apiPage s; loading := loading s; error := error s;
     uiPage := uiPage s; sort := sort s; lang := lang s; yearFrom := v;
     yearTo := yearTo s; showFav := showFav s; selected := selected s;
     favs := favs s |}.

Definition setYearTo (v : string) (s : AppState) : AppState :=
  {| mode := mode s; query := query s; docs := docs s; numFound := numFound s;
     apiPage := apiPage s; loading := loading s; error := error s;
     uiPage := uiPage s; sort := sort s; lang := lang s;
     yearFrom := yearFrom s; yearTo := v; showFav := showFav s;
     selected := selected s; favs := favs s |}.

Definition setShowFav (v : bool) (s : AppState) : AppState :=
  {| mode := mode s; query := query s; docs := docs s; numFound := numFound s;
     apiPage := apiPage s; loading := loading s; error := error s;
     uiPage := uiPage s; sort := sort s; lang := lang s;
     yearFrom := yearFrom s; yearTo := yearTo s; showFav := v;
     selected := selected s; favs := favs s |}.

Definition setSelected (v : option Doc) (s : AppState) : AppState :=
  {| mode := mode s; query := query s; docs := docs s; numFound := numFound s;
     apiPage := apiPage s; loading := loading s; error := error s;
     uiPage := uiPage s; sort := sort s; lang := lang s;
     yearFrom := yearFrom s; yearTo := yearTo s; showFav := showFav s;
     selected := v; favs := favs s |}.

Definition setFavs (v : list Doc) (s : AppState) : AppState :=
  {| mode := mode s; query := query s; docs := docs s; numFound := numFound s;
     apiPage := apiPage s; loading := loading s; error := error s;
     uiPage := uiPage s; sort := sort s; lang := lang s;
     yearFrom := yearFrom s; yearTo := yearTo s; showFav := showFav s;
     selected := selected s; favs := v |}.

(** ** The query builder *)

Definition search_fields : list string :=
  ["key"; "title"; "author_name"; "first_publish_year"; "cover_i";
   "edition_key"; "language"; "subject"; "isbn"].

(** The [params] object of [buildSearchURL] when it is serialized. *)
Definition searchParams (mode query : string) (apiPage : Z) : URLSearchParams :=
  let params : URLSearchParams := [] in
  let params :=
    if decide (mode = "title") then params_set "title" query params
    else if decide (mode = "author") then params_set "author" query params
    else if decide (mode = "isbn") then params_set "isbn" query params
    else if decide (mode = "subject") then params_set "subject" query params
    else params_set "q" query params in
  let params := params_set "page" (pretty apiPage) params in
  let params := params_set "fields" (join "," search_fields) params in
  params_set "limit" "100" params.

(** [buildSearchURL({ mode, query, apiPage })]. The serialized parameters hold
    only letters, digits and [*-._+%&=], which the URL's [search] setter
    leaves as they are, so the URL is the endpoint, [?] and that string. *)
Definition buildSearchURL (mode query : string) (apiPage : Z) : string :=
  OPENLIB_BASE +:+ "/search.json" +:+ "?"
    +:+ params_toString (searchParams mode query apiPage).

(** ** The result accumulator *)

Definition resetResults (s : AppState) : AppState :=
  setError "" (setUiPage 1 (setApiPage 1 (setNumFound 0 (setDocs [] s)))).

(** [{ ...d, __id: d.key }] *)
Definition withId (d : Doc) : Doc :=
  {| key := key d; title := title d; author_name := author_name d;
     first_publish_year := first_publish_year d; cover_i := cover_i d;
     edition_key := edition_key d; language := language d;
     subject := subject d; isbn := isbn d; __id := key d |}.

(** The updater [fetchPage] hands to [setDocs]:
    [(prev) => uniqueBy([...prev, ...newDocs], '__id')]. *)
Definition mergeDocs (prev newDocs : list Doc) : list Doc :=
  uniqueBy (prev ++ newDocs) __id.

(** [err.message] of the error each failure throws. *)
Definition failure_message (f : Failure) : string :=
  match f with
  | FetchRejected m => m
  | HttpStatus status => "HTTP " +:+ pretty status
  | JsonParseFailed m => m
  | BodyUnreadable m => m
  end.

(** The URL [fetchPage(p)] requests. *)
Definition fetchPage_url (p : Z) (s : AppState) : string :=
  buildSearchURL (mode s) (trim (query s)) p.

(** [fetchPage] up to its first [await]. *)
Definition fetchPage_begin (s : AppState) : AppState :=
  setError "" (setLoading true s).

(** [fetchPage] from the point where the awaited calls have settled with
    outcome [o]: the rest of the [try], the [catch], and the [finally]. *)
Definition fetchPage_settle (p : Z) (o : FetchOutcome) (s : AppState) : AppState :=
  let s1 :=
    match o with
    | Body data =>
        let newDocs := withId <$> default [] (data_docs data) in
        setApiPage p
          (setNumFound (num_or (data_numFound data) (Z.of_nat (length newDocs)))
            (setDocs (mergeDocs (docs s) newDocs) s))
    | Failed f =>
        setError (str_or (failure_message f) "Something went wrong") s
    end in
  setLoading false s1.

(** [fetchPage(p)] run to its end with nothing in between; [fetch] is what
    the network answers to a URL. *)
Definition fetchPage (fetch : string → FetchOutcome) (p : Z) (s : AppState) : AppState :=
  fetchPage_settle p (fetch (fetchPage_url p s)) (fetchPage_begin s).

Definition handleSearch (fetch : string → FetchOutcome) (s : AppState) : AppState :=
  if decide (trim (query s) = "") then s
  else fetchPage fetch 1 (resetResults s).

Definition loadMore (fetch : string → FetchOutcome) (s : AppState) : AppState :=
  fetchPage fetch (apiPage s + 1) s.

(** ** The filter, sort and paginate pipeline *)

(** [d.first_publish_year || 0] *)
Definition year_or_0 (d : Doc) : Z := num_or (first_publish_year d) 0.

(** [d.title || ''] *)
Definition title_or_empty (d : Doc) : string := default "" (title d).

(** The comparators of the three sort orders. [localeCompare] is the host's
    [String.prototype.localeCompare]. *)
Definition cmp_title (localeCompare : string → string → Z) (a b : Doc) : Z :=
  localeCompare (title_or_empty a) (title_or_empty b).
Definition cmp_year_asc (a b : Doc) : Z := year_or_0 a - year_or_0 b.
Definition cmp_year_desc (a b : Doc) : Z := year_or_0 b - year_or_0 a.

(** The [filtered] memo, as a function of what it depends on. *)
Definition filtered (localeCompare : string → string → Z) (docs : list Doc)
    (lang yearFrom yearTo sort : string) : list Doc :=
  let out := docs in
  let yf := parseInt (str_or yearFrom "0") in
  let yt := parseInt (str_or yearTo "9999") in
  let out :=
    if decide (lang = "") then out
    else filter (λ d, lang ∈ default [] (language d)) out in
  let out :=
    filter (λ d, num_le yf (Some (year_or_0 d)) ∧ num_le (Some (year_or_0 d)) yt) out in
  if decide (sort = "title") then sortBy (cmp_title localeCompare) out
  else if decide (sort = "year-asc") then sortBy cmp_year_asc out
  else if decide (sort = "year-desc") then sortBy cmp_year_desc out
  else out.

(** [Math.max(1, Math.ceil(filtered.length / PER_PAGE))], for any page size. *)
Definition totalPagesOf (perPage : Z) (filtered : list Doc) : Z :=
  Z.max 1 (ceil_div (Z.of_nat (length filtered)) perPage).

(** The [pageDocs] memo, for any page size. *)
Definition pageDocsOf (perPage : Z) (filtered : list Doc) (uiPage : Z) : list Doc :=
  let start := (uiPage - 1) * perPage in
  slice filtered start (start + perPage).

Section Derived.
Variable localeCompare : string → string → Z.

Definition filteredOf (s : AppState) : list Doc :=
  filtered localeCompare (docs s) (lang s) (yearFrom s) (yearTo s) (sort s).

Definition totalPages (s : AppState) : Z := totalPagesOf PER_PAGE (filteredOf s).

Definition pageDocs (s : AppState) : list Doc :=
  pageDocsOf PER_PAGE (filteredOf s) (uiPage s).
End Derived.

(** ** Favorites *)

(** The object [toggleFav] stores for [doc]. *)
Definition favOf (doc : Doc) : Doc :=
  {| __id := __id doc; key := key doc; title := title doc;
     author_name := author_name doc;
     first_publish_year := first_publish_year doc; cover_i := cover_i doc;
     isbn := isbn doc;
     edition_key := None; language := None; subject := None |}.

(** [toggleFav(doc)], as the list it hands to [setFavs]. *)
Definition toggleFav (doc : Doc) (favs : list Doc) : list Doc :=
  let id := __id doc in
  match find (λ x, bool_decide (__id x = id)) favs with
  | Some _ => filter (λ x, __id x ≠ id) favs
  | None => favs ++ [favOf doc]
  end.

(** The Remove button of the favorites panel. *)
Definition removeFav (doc : Doc) (favs : list Doc) : list Doc :=
  filter (λ x, __id x ≠ __id doc) favs.

Definition isFav (doc : Doc) (favs : list Doc) : bool :=
  existsb (λ x, bool_decide (__id x = __id doc)) favs.

(** ** Events *)

(** What the user and the network can do to the state. A fetch is two events:
    the handler that starts it and, at any later time, its settling. *)
Inductive Event :=
  | ChangeMode (v : string)
  | ChangeQuery (v : string)
  | SubmitSearch
  | ClickLoadMore
  | FetchSettled (p : Z) (o : FetchOutcome)
  | ChangeLang (v : string)
  | ChangeYearFrom (v : string)
  | ChangeYearTo (v : string)
  | ChangeSort (v : string)
  | ClickPrevious
  | ClickNext
  | ToggleFavorite (doc : Doc)
  | RemoveFavorite (doc : Doc)
  | ToggleFavPanel
  | Select (doc : option Doc).

Section Step.
Variable localeCompare : string → string → Z.

(** The handlers of the four filter controls. *)
Definition onLangChange (v : string) (s : AppState) : AppState :=
  setUiPage 1 (setLang v s).
Definition onYearFromChange (v : string) (s : AppState) : AppState :=
  setUiPage 1 (setYearFrom v s).
Definition onYearToChange (v : string) (s : AppState) : AppState :=
  setUiPage 1 (setYearTo v s).
Definition onSortChange (v : string) (s : AppState) : AppState :=
  setUiPage 1 (setSort v s).

(** The Previous and Next buttons; they are rendered when [docs] is not
    empty, and a disabled button does not fire. *)
Definition onPrevious (s : AppState) : AppState :=
  if decide (docs s = [] ∨ uiPage s = 1) then s
  else setUiPage (Z.max 1 (uiPage s - 1)) s.

Definition onNext (s : AppState) : AppState :=
  if decide (docs s = [] ∨ totalPages localeCompare s ≤ uiPage s) then s
  else setUiPage (Z.min (totalPages localeCompare s) (uiPage s + 1)) s.

Definition step (s : AppState) (e : Event) : AppState :=
  match e with
  | ChangeMode v => setMode v s
  | ChangeQuery v => setQuery v s
  | SubmitSearch =>
      if decide (trim (query s) = "") then s
      else fetchPage_begin (resetResults s)
  | ClickLoadMore =>
      if decide (docs s = [] ∨ loading s = true) then s else fetchPage_begin s
  | FetchSettled p o => fetchPage_settle p o s
  | ChangeLang v => onLangChange v s
  | ChangeYearFrom v => onYearFromChange v s
  | ChangeYearTo v => onYearToChange v s
  | ChangeSort v => onSortChange v s
  | ClickPrevious => onPrevious s
  | ClickNext => onNext s
  | ToggleFavorite doc => setFavs (toggleFav doc (favs s)) s
  | RemoveFavorite doc => setFavs (removeFav doc (favs s)) s
  | ToggleFavPanel => setShowFav (negb (showFav s)) s
  | Select doc => setSelected doc s
  end.

(** The state of the first render; [stored] is the favorites list read from
    local storage. *)
Definition initial (stored : list Doc) : AppState :=
  {| mode := "title"; query := ""; docs := []; numFound := 0; apiPage := 1;
     loading := false; error := ""; uiPage := 1; sort := "relevance";
     lang := ""; yearFrom := ""; yearTo := ""; showFav := false;
     selected := None; favs := stored |}.

Definition run (s : AppState) (es : list Event) : AppState := foldl step s es.

(** A state the application can be in. *)
Definition reachable (s : AppState) : Prop :=
  ∃ stored es, s = run (initial stored) es.
End Step.

(** ** The other functions of App.jsx *)

(** [cls(...xs)]: an argument is a string, or a value that is not one
    ([false], [undefined]), which is [None]; [filter(Boolean)] drops these
    and the empty string. *)
Definition truthy_class (x : option string) : option string :=
  match x with
  | Some s => if decide (s = "") then None else Some s
  | None => None
  end.

Definition cls (xs : list (option string)) : string :=
  join " " (omap truthy_class xs).

(** [coverURL(doc)]; [doc] may be [null]. *)
Definition coverURL (doc : option Doc) : option string :=
  let by_isbn :=
    match (d ← doc; l ← isbn d; head l) with
    | Some i =>
        if decide (i = "") then None
        else Some ("https://covers.openlibrary.org/b/isbn/" +:+ i +:+ "-M.jpg")
    | None => None
    end in
  match (d ← doc; cover_i d) with
  | Some c =>
      if decide (c = 0) then by_isbn
      else Some ("https://covers.openlibrary.org/b/id/" +:+ pretty c +:+ "-M.jpg")
  | None => by_isbn
  end.

(** [openLibraryWorkURL(doc)] *)
Definition openLibraryWorkURL (doc : option Doc) : option string :=
  match (d ← doc; key d) with
  | Some k => if decide (k = "") then None else Some (OPENLIB_BASE +:+ k)
  | None => None
  end.

(** The author line of a card, of a favorite and of the details:
    [(doc.author_name || []).join(', ') || 'Unknown author']. *)
Definition authorLine (doc : Doc) : string :=
  str_or (join ", " (default [] (author_name doc))) "Unknown author".

(** The comparator [sort()] uses when it is given none: strings by their
    code units. Bytes of UTF-8 order the same way for text of the Basic
    Multilingual Plane. *)
Definition compare_default (a b : string) : Z :=
  match String.compare a b with
  | Lt => -1
  | Eq => 0
  | Gt => 1
  end.

(** The [languagesAvailable] memo: the codes are added to a [Set] record by
    record, and [Array.from] lists them in the order they were added. *)
Definition languagesAvailable (docs : list Doc) : list string :=
  let set := uniqueBy (docs ≫= λ d, default [] (language d)) id in
  sortBy compare_default set.

(** Local storage: the items it holds; [denied] when every access to it
    throws. A write that throws for lack of space is not modelled apart: the
    hook ignores it as it ignores a denied one. *)
Record Storage := {
  items : gmap string string;
  denied : bool;
}.

Section LocalStorage.
Context {A : Type}.

(** [JSON.stringify] and [JSON.parse] at the type of the stored value;
    [None] is a parse that throws. *)
Variable JSON_stringify : A → string.
Variable JSON_parse : string → option A.

(** The initial value of [useLocalStorage(key, initial)]. *)
Definition useLocalStorage_init (st : Storage) (key : string) (initial : A) : A :=
  if denied st then initial
  else
    match items st !! key with
    | Some raw =>
        if decide (raw = "") then initial
        else match JSON_parse raw with
             | Some v => v
             | None => initial
             end
    | None => initial
    end.

(** The effect of [useLocalStorage], run when [key] or [val] changes. *)
Definition useLocalStorage_effect (st : Storage) (key : string) (val : A) : Storage :=
  if denied st then st
  else {| items := <[key := JSON_stringify val]> (items st); denied := false |}.
End LocalStorage.

(** ** Vocabulary of the specification *)

(** [c] is the ceiling of the quotient [n / d]. *)
Definition is_ceil (c n d : Z) : Prop := (c - 1) * d < n ≤ c * d.

(** The record's publish year, 0 if absent. *)
Definition publish_year (d : Doc) : Z := default 0 (first_publish_year d).

(** The language predicate: no language is selected, or the record's language
    list contains the selected code. *)
Definition passes_language (lang : string) (d : Doc) : Prop :=
  lang = "" ∨ lang ∈ default [] (language d).

(** A year bound as the filter reads it: the default when the input is empty,
    else the integer the input starts with (none: the bound is not a
    number). *)
Definition year_bound (input : string) (dflt : Z) : option Z :=
  if decide (input = "") then Some dflt else parseInt input.

(** The year predicate: the publish year lies in the inclusive range
    [year-from or 0, year-to or 9999]. *)
Definition passes_year (yearFrom yearTo : string) (d : Doc) : Prop :=
  match year_bound yearFrom 0, year_bound yearTo 9999 with
  | Some lo, Some hi => lo ≤ publish_year d ≤ hi
  | _, _ => False
  end.

#[global] Instance passes_language_dec lang d : Decision (passes_language lang d).
Proof. unfold passes_language. apply _. Defined.

#[global] Instance passes_year_dec yf yt d : Decision (passes_year yf yt d).
Proof.
  unfold passes_year.
  destruct (year_bound yf 0), (year_bound yt 9999); apply _.
Defined.

(** The search parameter the specification assigns to a mode: the modes
    [title], [author], [isbn] and [subject] have a parameter of their own
    name, any other mode has the free-text parameter [q]. *)
Definition mode_param (mode : string) : string :=
  if decide (mode ∈ ["title"; "author"; "isbn"; "subject"]) then mode else "q".

(** The names of the five search parameters. *)
Definition search_param_names : list string :=
  ["title"; "author"; "isbn"; "subject"; "q"].

(** Every byte of [s] is one the form-urlencoded serializer leaves alone. *)
Fixpoint all_form_safe (s : string) : bool :=
  match s with
  | EmptyString => true
  | String c r => form_safe c && all_form_safe r
  end.

(** The elements of [l] that no earlier element of [l] has the key of, in
    the order [l] has them: the element at position [j] stays when its key
    is not among the keys of the first [j] elements. *)
Definition first_occurrences {A K} `{EqDecision K} (key : A → K)
    (l : list A) : list A :=
  concat (imap (λ j x, if decide (key x ∈ key <$> take j l) then [] else [x]) l).

(** The records that pass both predicates, in the order [docs] has them. *)
Definition matching (lang yearFrom yearTo : string) (docs : list Doc) : list Doc :=
  filter (λ d, passes_language lang d ∧ passes_year yearFrom yearTo d) docs.

(** [output] is [input] sorted by the preorder [le], ascending and stable:
    the same elements, each one below all that follow it, and the elements
    that are equal under [le] in the order [input] has them. *)
Definition stable_sorted {A} (le : A → A → Prop) `{!RelDecision le}
    (input output : list A) : Prop :=
  output ≡ₚ input
  ∧ StronglySorted le output
  ∧ ∀ a, filter (λ x, le a x ∧ le x a) output = filter (λ x, le a x ∧ le x a) input.

(** The three orders of the sort control. *)
Definition title_le (localeCompare : string → string → Z) (a b : Doc) : Prop :=
  localeCompare (default "" (title a)) (default "" (title b)) ≤ 0.
Definition year_le (a b : Doc) : Prop := publish_year a ≤ publish_year b.
Definition year_ge (a b : Doc) : Prop := publish_year b ≤ publish_year a.

#[global] Instance title_le_dec lc : RelDecision (title_le lc).
Proof. intros a b. unfold title_le. apply _. Defined.
#[global] Instance year_le_dec : RelDecision year_le.
Proof. intros a b. unfold year_le. apply _. Defined.
#[global] Instance year_ge_dec : RelDecision year_ge.
Proof. intros a b. unfold year_ge. apply _. Defined.

(** The invariant of the accumulated list and of the local page number. *)
Definition docs_distinct (s : AppState) : Prop := NoDup (__id <$> docs s).

Definition page_in_range (localeCompare : string → string → Z) (s : AppState) : Prop :=
  1 ≤ uiPage s ≤ totalPages localeCompare s.

(** The value of a hexadecimal digit. *)
Definition hex_value (c : ascii) : option N :=
  let n := Ascii.N_of_ascii c in
  if ((48 <=? n) && (n <=? 57))%N then Some (n - 48)%N
  else if ((65 <=? n) && (n <=? 70))%N then Some (n - 55)%N
  else if ((97 <=? n) && (n <=? 102))%N then Some (n - 87)%N
  else None.

(** The form-urlencoded decoding a server applies to a parameter: [+] is a
    space and [%XY] is the byte with that code. *)
Fixpoint form_decode (s : string) : string :=
  match s with
  | EmptyString => EmptyString
  | String c r =>
      if decide (c = "+"%char) then String " " (form_decode r)
      else if decide (c = "%"%char) then
        match r with
        | String a (String b r') =>
            match hex_value a, hex_value b with
            | Some hi, Some lo =>
                String (Ascii.ascii_of_N (16 * hi + lo)) (form_decode r')
            | _, _ => String c (form_decode r)
            end
        | _ => String c (form_decode r)
        end
      else String c (form_decode r)
  end.

(** [c] occurs in [s]. *)
Fixpoint string_has (c : ascii) (s : string) : bool :=
  match s with
  | EmptyString => false
  | String x r => bool_decide (x = c) || string_has c r
  end.

(** The local pages of a filtered list, first to last. *)
Definition pagesOf (perPage : Z) (filtered : list Doc) : list (list Doc) :=
  (λ k, pageDocsOf perPage filtered (Z.of_nat k))
    <$> seq 1 (Z.to_nat (totalPagesOf perPage filtered)).

(** Every accumulated record carries its catalog key as its identifier. *)
Definition ids_are_keys (s : AppState) : Prop :=
  ∀ d, d ∈ docs s → __id d = key d.

(** ** Sample data *)

Definition book (k t : string) (y : option Z) (langs : list string) : Doc :=
  {| key := Some k; title := Some t; author_name := None;
     first_publish_year := y; cover_i := None; edition_key := None;
     language := Some langs; subject := None; isbn := None; __id := Some k |}.

Definition dune : Doc := book "/works/OL893415W" "Dune" (Some 1965) ["eng"].
Definition emma : Doc := book "/works/OL66513W" "Emma" (Some 1815) ["eng"; "fre"].
Definition ulysses : Doc := book "/works/OL23205W" "Ulysses" None ["eng"].

(** A record with a cover identifier and an ISBN. *)
Definition hobbit : Doc :=
  {| key := Some "/works/OL27482W"; title := Some "The Hobbit";
     author_name := Some ["J. R. R. Tolkien"];
     first_publish_year := Some 1937; cover_i := Some 6979861;
     edition_key := None; language := Some ["eng"]; subject := None;
     isbn := Some ["9780261102217"]; __id := Some "/works/OL27482W" |}.

(** A record the response gives no catalog key for. *)
Definition keyless (t : string) : Doc :=
  {| key := None; title := Some t; author_name := None;
     first_publish_year := None; cover_i := None; edition_key := None;
     language := None; subject := None; isbn := None; __id := None |}.

(** Forty-one records, and a session that loads them and goes to the second
    of their three pages. *)
Definition shelf : list Doc :=
  (λ n : nat, book ("/works/OL" +:+ pretty n +:+ "W") "Untitled" None [])
    <$> seq 1 41.

Definition browsing : list Event :=
  [ChangeQuery "e"; SubmitSearch;
   FetchSettled 1 (Body {| data_docs := Some shelf; data_numFound := Some 41 |});
   ClickNext].

(** A state with two records loaded, out of 57 the server reported. *)
Definition loaded : AppState :=
  {| mode := "title"; query := "e"; docs := [dune; emma]; numFound := 57;
     apiPage := 1; loading := false; error := ""; uiPage := 1;
     sort := "relevance"; lang := ""; yearFrom := ""; yearTo := "";
     showFav := false; selected := None; favs := [] |}.

(** A response that repeats the two records and gives no total. *)
Definition repeated : SearchData :=
  {| data_docs := Some [dune; emma]; data_numFound := None |}.

(** A response with one new record and a total of 0. *)
Definition zero_total : SearchData :=
  {| data_docs := Some [ulysses]; data_numFound := Some 0 |}.

(** A session: a search, its answer, a change of sort order, a click on
    Next. *)
Definition session : list Event :=
  [ChangeQuery "e"; SubmitSearch; FetchSettled 1 (Body repeated);
   ChangeSort "title"; ClickNext].

(** A comparator to run the title sort with: shorter strings first. *)
Definition by_length (a b : string) : Z :=
  Z.of_nat (String.length a) - Z.of_nat (String.length b).

(** * Properties *)

(** ** Deduplication *)

Section UniqueBy.
Context {A K : Type} `{Countable K}.
Variable key : A → K.

Implicit Types (seen : gset K) (l : list A).

Lemma uniqueBy_from_elem seen l x :
  x ∈ uniqueBy_from key seen l → x ∈ l ∧ key x ∉ seen.
Proof.
  revert seen. induction l as [|y l IH]; intros seen; simpl.
  - by intros ?%elem_of_nil.
  - destruct (decide (key y ∈ seen)) as [Hin|Hout].
    + intros Hx. apply IH in Hx as [? ?]. split; [by right | done].
    + intros Hx. apply elem_of_cons in Hx as [Heq|Hx].
      * subst x. split; [by left | done].
      * apply IH in Hx as [? Hns]. split; [by right | set_solver].
Qed.

Lemma uniqueBy_from_NoDup seen l : NoDup (key <$> uniqueBy_from key seen l).
Proof.
  revert seen. induction l as [|y l IH]; intros seen; simpl.
  - constructor.
  - destruct (decide (key y ∈ seen)); [apply IH |].
    rewrite fmap_cons. constructor; [| apply IH].
    intros (x & Hk & Hx)%list_elem_of_fmap.
    apply uniqueBy_from_elem in Hx as [_ Hx]. set_solver.
Qed.

Lemma uniqueBy_from_sublist seen l : sublist (uniqueBy_from key seen l) l.
Proof.
  revert seen. induction l as [|y l IH]; intros seen; simpl.
  - constructor.
  - destruct (decide (key y ∈ seen)).
    + by apply sublist_cons.
    + by apply sublist_skip.
Qed.

(** Looking up a key that was not seen before finds, in the deduplicated
    list, the element that comes first in the input. *)
Lemma uniqueBy_from_find seen l k :
  k ∉ seen →
  snd <$> list_find (λ x, key x = k) (uniqueBy_from key seen l)
  = snd <$> list_find (λ x, key x = k) l.
Proof.
  revert seen. induction l as [|y l IH]; intros seen Hk; simpl; [done |].
  destruct (decide (key y ∈ seen)) as [Hin|Hout].
  - rewrite decide_False by (by intros <-).
    rewrite IH by done. by rewrite <- option_fmap_compose.
  - simpl. destruct (decide (key y = k)) as [Heq|Hne]; [done |].
    rewrite <- !option_fmap_compose. simpl.
    apply (IH ({[key y]} ∪ seen)). set_solver.
Qed.

Lemma uniqueBy_from_app seen l1 l2 :
  uniqueBy_from key seen (l1 ++ l2)
  = uniqueBy_from key seen l1
    ++ uniqueBy_from key (seen ∪ list_to_set (key <$> l1)) l2.
Proof.
  revert seen. induction l1 as [|y l1 IH]; intros seen; simpl.
  - f_equal. set_solver.
  - destruct (decide (key y ∈ seen)) as [Hin|Hout].
    + rewrite IH. do 2 f_equal. set_solver.
    + simpl. rewrite IH. do 3 f_equal. set_solver.
Qed.

(** A list whose keys are new and pairwise distinct is kept as it is. *)
Lemma uniqueBy_from_id seen l :
  NoDup (key <$> l) → (∀ x, x ∈ l → key x ∉ seen) →
  uniqueBy_from key seen l = l.
Proof.
  revert seen. induction l as [|y l IH]; intros seen Hnd Hnew; simpl; [done |].
  rewrite fmap_cons in Hnd. apply NoDup_cons in Hnd as [Hy Hnd].
  rewrite decide_False by (apply Hnew; by left).
  f_equal. apply IH; [done |].
  intros x Hx. specialize (Hnew x (list_elem_of_further _ _ _ Hx)).
  assert (key x ≠ key y).
  { intros Heq. apply Hy. rewrite <- Heq. by apply list_elem_of_fmap_2. }
  set_solver.
Qed.

(** A list all of whose keys were seen contributes nothing. *)
Lemma uniqueBy_from_all_seen seen l :
  (∀ x, x ∈ l → key x ∈ seen) → uniqueBy_from key seen l = [].
Proof.
  induction l as [|y l IH]; intros Hall; simpl; [done |].
  rewrite decide_True by (apply Hall; by left).
  apply IH. intros x Hx. apply Hall. by right.
Qed.

Lemma uniqueBy_NoDup l : NoDup (key <$> uniqueBy l key).
Proof. apply uniqueBy_from_NoDup. Qed.

Lemma uniqueBy_find l k :
  snd <$> list_find (λ x, key x = k) (uniqueBy l key)
  = snd <$> list_find (λ x, key x = k) l.
Proof. apply uniqueBy_from_find. set_solver. Qed.

(** Every key of the input is a key of the output. *)
Lemma uniqueBy_keys l x : x ∈ l → key x ∈ key <$> uniqueBy l key.
Proof.
  intros Hx. pose proof (uniqueBy_find l (key x)) as Hfind.
  destruct (list_find (λ y, key y = key x) l) as [[i y]|] eqn:Hl.
  - destruct (list_find (λ y, key y = key x) (uniqueBy l key))
      as [[j z]|] eqn:Hm; [| done].
    apply list_find_Some in Hm as (Hj & Hz & _).
    rewrite <- Hz. apply list_elem_of_fmap_2. by eapply list_elem_of_lookup_2.
  - apply list_find_None in Hl. rewrite Forall_forall in Hl.
    exfalso. by apply (Hl x).
Qed.

(** Appending elements whose keys are all known changes nothing. *)
Lemma uniqueBy_app_known l1 l2 :
  NoDup (key <$> l1) → (∀ x, x ∈ l2 → key x ∈ key <$> l1) →
  uniqueBy (l1 ++ l2) key = l1.
Proof.
  intros Hnd Hknown. unfold uniqueBy.
  rewrite uniqueBy_from_app, uniqueBy_from_id by (done || set_solver).
  rewrite uniqueBy_from_all_seen; [apply app_nil_r |].
  intros d Hd. specialize (Hknown d Hd). set_solver.
Qed.

(** A duplicate-free list is a prefix of what it is merged into. *)
Lemma uniqueBy_app_prefix l1 l2 :
  NoDup (key <$> l1) → ∃ added, uniqueBy (l1 ++ l2) key = l1 ++ added.
Proof.
  intros Hnd. unfold uniqueBy.
  rewrite uniqueBy_from_app, uniqueBy_from_id by (done || set_solver).
  eauto.
Qed.
End UniqueBy.

Section FirstOccurrences.
Context {A K : Type} `{Countable K}.
Variable key : A → K.

(** With the keys of [pre] seen, the filter keeps the element at position
    [j] exactly when its key is neither in [pre] nor among the first [j]
    elements. *)
Lemma uniqueBy_from_positions (pre : list A) (seen : gset K) (l : list A) :
  (∀ k, k ∈ seen ↔ k ∈ key <$> pre) →
  uniqueBy_from key seen l
  = concat (imap (λ j x, if decide (key x ∈ key <$> (pre ++ take j l))
                         then [] else [x]) l).
Proof.
  revert pre seen. induction l as [|x l IH]; intros pre seen Hseen; [done |].
  rewrite imap_cons. simpl. rewrite app_nil_r.
  assert (Hrest : ∀ seen', (∀ k, k ∈ seen' ↔ k ∈ key <$> (pre ++ [x])) →
            uniqueBy_from key seen' l
            = concat (imap ((λ j y, if decide (key y ∈ key <$> (pre ++ take j (x :: l)))
                                    then [] else [y]) ∘ S) l)).
  { intros seen' Hseen'. rewrite (IH (pre ++ [x]) seen' Hseen').
    f_equal. apply imap_ext. intros j y _. simpl.
    by rewrite <- app_assoc. }
  destruct (decide (key x ∈ seen)) as [Hin|Hout].
  - rewrite decide_True by (by apply Hseen).
    simpl. apply Hrest. intros k. rewrite fmap_app, elem_of_app, <- Hseen.
    set_solver.
  - rewrite decide_False by (by rewrite <- Hseen).
    simpl. f_equal. apply Hrest. intros k.
    rewrite fmap_app, elem_of_app, <- Hseen. set_solver.
Qed.

(** [uniqueBy] keeps the first occurrences, where they are. *)
Lemma uniqueBy_first_occurrences (l : list A) :
  uniqueBy l key = first_occurrences key l.
Proof.
  unfold uniqueBy, first_occurrences.
  rewrite (uniqueBy_from_positions [] ∅ l) by set_solver. done.
Qed.
End FirstOccurrences.

(** [C1] Merging a fetched batch into the accumulated list gives the records
    of the concatenation of the old list and the batch that no earlier
    record of the concatenation has the identifier of, in the order the
    concatenation has them. So no two records of the result have the same
    stable identifier, the result is the concatenation with records left
    out, and the record kept for an identifier is the first record of the
    concatenation with that identifier. *)
Theorem mergeDocs_first_wins (prev batch : list Doc) :
  mergeDocs prev batch = first_occurrences __id (prev ++ batch)
  ∧ NoDup (__id <$> mergeDocs prev batch)
  ∧ sublist (mergeDocs prev batch) (prev ++ batch)
  ∧ ∀ id, snd <$> list_find (λ d, __id d = id) (mergeDocs prev batch)
          = snd <$> list_find (λ d, __id d = id) (prev ++ batch).
Proof.
  unfold mergeDocs. split; [apply uniqueBy_first_occurrences |].
  split; [apply uniqueBy_NoDup |].
  split; [apply uniqueBy_from_sublist |].
  intros id. apply uniqueBy_find.
Qed.

(** A record met again keeps the place of its first occurrence. *)
Example mergeDocs_keeps_place :
  mergeDocs [dune; emma] [dune] = [dune; emma]
  ∧ first_occurrences __id [emma; dune; emma; ulysses; dune]
    = [emma; dune; ulysses].
Proof. split; reflexivity. Qed.

(** The scenario of the specification: [1; 2] merged with [2; 3]. *)
Example mergeDocs_scenario :
  mergeDocs [dune; emma] [emma; ulysses] = [dune; emma; ulysses].
Proof. reflexivity. Qed.

(** [C10] When the accumulated list has no duplicate identifiers, merging a
    batch all of whose identifiers already occur in it leaves the list as it
    is. *)
Theorem mergeDocs_known_batch (prev batch : list Doc) :
  NoDup (__id <$> prev) →
  (∀ d, d ∈ batch → __id d ∈ __id <$> prev) →
  mergeDocs prev batch = prev.
Proof. unfold mergeDocs. apply uniqueBy_app_known. Qed.

Lemma mergeDocs_known_batch_witness :
  mergeDocs [dune; emma] [emma; dune; emma] = [dune; emma].
Proof.
  apply (mergeDocs_known_batch [dune; emma] [emma; dune; emma]).
  - apply (bool_decide_unpack _). by vm_compute.
  - intros d Hd. apply (bool_decide_unpack _).
    repeat (apply elem_of_cons in Hd as [->|Hd]; [by vm_compute |]).
    by apply elem_of_nil in Hd.
Defined.

(** Fetching the same page again adds nothing: a second merge of a batch is
    the first one. *)
Lemma mergeDocs_again (prev batch : list Doc) :
  mergeDocs (mergeDocs prev batch) batch = mergeDocs prev batch.
Proof.
  unfold mergeDocs. apply uniqueBy_app_known; [apply uniqueBy_NoDup |].
  intros d Hd. apply uniqueBy_keys. set_solver.
Qed.

(** ** Pagination *)

Lemma ceil_div_is_ceil (n d : Z) : 0 < d → is_ceil (ceil_div n d) n d.
Proof.
  intros Hd. unfold is_ceil, ceil_div.
  pose proof (Z.div_mod (- n) d ltac:(lia)) as Hdm.
  pose proof (Z.mod_pos_bound (- n) d Hd) as Hm.
  nia.
Qed.

Lemma is_ceil_unique (c c' n d : Z) :
  0 < d → is_ceil c n d → is_ceil c' n d → c = c'.
Proof. unfold is_ceil. intros Hd H1 H2. nia. Qed.

Lemma ceil_div_mono (n m d : Z) : 0 < d → n ≤ m → ceil_div n d ≤ ceil_div m d.
Proof.
  intros Hd Hnm. unfold ceil_div.
  pose proof (Z.div_le_mono (- m) (- n) d Hd ltac:(lia)). lia.
Qed.

(** A window that starts at a non-negative index is a [take] of a [drop]. *)
Lemma slice_window {A} (l : list A) (start size : Z) :
  0 ≤ start → 0 ≤ size →
  slice l start (start + size) = take (Z.to_nat size) (drop (Z.to_nat start) l).
Proof.
  intros Hs Hp. unfold slice.
  destruct (Z.ltb_spec start 0) as [?|_]; [lia |].
  destruct (Z.ltb_spec (start + size) 0) as [?|_]; [lia |].
  set (len := Z.of_nat (length l)).
  assert (Hlen : len = Z.of_nat (length l)) by done.
  destruct (Z.le_gt_cases start len) as [Hin|Hout].
  - rewrite (Z.min_l start len) by done.
    destruct (Z.le_gt_cases (start + size) len) as [Hfit|Hcut].
    + rewrite Z.min_l by done. do 2 f_equal. lia.
    + rewrite Z.min_r by lia.
      rewrite !take_ge; [done | |]; rewrite length_drop; lia.
  - rewrite !Z.min_r by lia. rewrite Z.sub_diag. simpl.
    rewrite (drop_ge l (Z.to_nat start)) by lia. by rewrite take_nil.
Qed.

Lemma pageDocsOf_window (perPage : Z) (l : list Doc) (k : Z) :
  0 < perPage → 1 ≤ k →
  pageDocsOf perPage l k
  = take (Z.to_nat perPage) (drop (Z.to_nat ((k - 1) * perPage)) l).
Proof. intros HP Hk. unfold pageDocsOf. apply slice_window; nia. Qed.

Lemma pageDocsOf_length (perPage : Z) (l : list Doc) (k : Z) :
  0 < perPage → 1 ≤ k →
  Z.of_nat (length (pageDocsOf perPage l k))
  = Z.min perPage (Z.max 0 (Z.of_nat (length l) - (k - 1) * perPage)).
Proof.
  intros HP Hk. rewrite pageDocsOf_window by done.
  rewrite length_take, length_drop. nia.
Qed.

(** [C2], as the code has it. For a filtered list of [N] records and a page
    size [P > 0]: the total-page count is [max 1 (ceil (N / P))], that is
    [ceil (N / P)] when [N > 0] and 1 when [N = 0]; page [k >= 1] is the
    slice of at most [P] records that starts at [(k - 1) * P], and it is not
    empty exactly when [k <= ceil (N / P)]; when [N > 0] the last page holds
    [N mod P] records, or [P] when [N mod P = 0]; when [N = 0] the one page
    is empty. *)
Theorem pagination_pages (P : Z) (l : list Doc) :
  0 < P →
  let N := Z.of_nat (length l) in
  is_ceil (ceil_div N P) N P
  ∧ totalPagesOf P l = Z.max 1 (ceil_div N P)
  ∧ (0 < N → totalPagesOf P l = ceil_div N P)
  ∧ (∀ k, 1 ≤ k →
       pageDocsOf P l k = take (Z.to_nat P) (drop (Z.to_nat ((k - 1) * P)) l)
       ∧ Z.of_nat (length (pageDocsOf P l k)) ≤ P
       ∧ (pageDocsOf P l k ≠ [] ↔ k ≤ ceil_div N P))
  ∧ (0 < N →
       Z.of_nat (length (pageDocsOf P l (totalPagesOf P l)))
       = if decide (N mod P = 0) then P else N mod P)
  ∧ (N = 0 → totalPagesOf P l = 1 ∧ pageDocsOf P l 1 = []).
Proof.
  intros HP N.
  pose proof (ceil_div_is_ceil N P HP) as Hc.
  assert (HN : 0 ≤ N) by lia.
  assert (Htot : 0 < N → totalPagesOf P l = ceil_div N P).
  { intros Hpos. unfold totalPagesOf. fold N. unfold is_ceil in Hc. nia. }
  split; [done |]. split; [done |]. split; [done |].
  split; [| split].
  - intros k Hk. split; [by apply pageDocsOf_window |].
    pose proof (pageDocsOf_length P l k HP Hk) as Hlen. fold N in Hlen.
    split; [lia |].
    rewrite <- length_zero_iff_nil. unfold is_ceil in Hc. split.
    + intros Hne. nia.
    + intros Hle. nia.
  - intros Hpos. rewrite (Htot Hpos).
    assert (1 ≤ ceil_div N P) as H1 by (unfold is_ceil in Hc; nia).
    rewrite pageDocsOf_length by done. fold N.
    pose proof (Z.div_mod N P ltac:(lia)) as Hdm.
    pose proof (Z.mod_pos_bound N P HP) as Hm.
    unfold is_ceil in Hc.
    destruct (decide (N mod P = 0)) as [H0|H0].
    + assert (ceil_div N P = N / P) by nia. nia.
    + assert (ceil_div N P = N / P + 1) by nia. nia.
  - intros H0. assert (l = []) as -> by (apply length_zero_iff_nil; lia).
    split; [| by rewrite pageDocsOf_window, drop_nil, take_nil by lia].
    unfold totalPagesOf. simpl. unfold ceil_div. simpl.
    rewrite Z.div_0_l by lia. done.
Qed.

Lemma pagination_pages_witness :
  totalPagesOf PER_PAGE (replicate 41 dune) = 3
  ∧ length (pageDocsOf PER_PAGE (replicate 41 dune) 3) = 1%nat.
Proof.
  destruct (pagination_pages PER_PAGE (replicate 41 dune) eq_refl)
    as (_ & Htotal & _ & _ & Hlast & _).
  split; [exact Htotal |].
  specialize (Hlast eq_refl). apply Nat2Z.inj. exact Hlast.
Defined.

(** [C2], as the specification words it, fails for the empty list: there the
    total-page count is 1, and the ceiling of [0 / 20] is 0. *)
Lemma totalPages_empty_not_ceil :
  ¬ is_ceil (totalPagesOf PER_PAGE []) (Z.of_nat (length (@nil Doc))) PER_PAGE.
Proof. unfold is_ceil. vm_compute. intros [H _]. discriminate H. Qed.

(** ** Sorting *)

(** Whatever the comparator, sorting rearranges and nothing else. *)
Lemma sort_insert_perm {A} (cmp : A → A → Z) (x : A) (l : list A) :
  sort_insert cmp x l ≡ₚ x :: l.
Proof.
  induction l as [|y l IH]; simpl; [done |].
  destruct (decide (cmp x y ≤ 0)); [done |].
  rewrite IH. apply Permutation_swap.
Qed.

Lemma sortBy_perm {A} (cmp : A → A → Z) (l : list A) :
  sortBy cmp l ≡ₚ l.
Proof.
  induction l as [|x l IH]; simpl; [done |].
  by rewrite sort_insert_perm, IH.
Qed.

Section SortBy.
Context {A : Type}.
Variable cmp : A → A → Z.
Variable le : A → A → Prop.
Context `{!RelDecision le} `{!Transitive le} `{!Total le}.
Hypothesis cmp_le : ∀ a b, cmp a b ≤ 0 ↔ le a b.

Implicit Types (l : list A).

(** Two elements are tied when each is below the other. *)
Let tied (a x : A) : Prop := le a x ∧ le x a.

Lemma sort_insert_sorted x l :
  StronglySorted le l → StronglySorted le (sort_insert cmp x l).
Proof.
  induction 1 as [|y l Hl IH Hy]; simpl.
  - repeat constructor.
  - destruct (decide (cmp x y ≤ 0)) as [Hxy|Hxy].
    + apply cmp_le in Hxy. constructor; [by constructor |].
      constructor; [done |].
      eapply Forall_impl; [exact Hy |]. intros z Hz. by trans y.
    + constructor; [done |].
      rewrite sort_insert_perm. constructor; [| done].
      destruct (total le x y) as [Hle|Hle]; [| done].
      by apply cmp_le in Hle.
Qed.

Lemma sortBy_sorted l : StronglySorted le (sortBy cmp l).
Proof.
  induction l as [|x l IH]; simpl; [constructor |].
  by apply sort_insert_sorted.
Qed.

(** Inserting [x] moves it past elements it exceeds only, and those are
    not tied with it: the elements tied with [a] stay in their order. *)
Lemma sort_insert_tied a x l :
  filter (tied a) (sort_insert cmp x l) = filter (tied a) (x :: l).
Proof.
  induction l as [|y l IH]; simpl; [done |].
  destruct (decide (cmp x y ≤ 0)) as [Hxy|Hxy]; [done |].
  rewrite (filter_cons _ y), IH, !filter_cons.
  destruct (decide (tied a x)) as [[Hax Hxa]|]; [| done].
  destruct (decide (tied a y)) as [[Hay Hya]|]; [| done].
  exfalso. apply Hxy, cmp_le. by trans a.
Qed.

Lemma sortBy_tied a l : filter (tied a) (sortBy cmp l) = filter (tied a) l.
Proof.
  induction l as [|x l IH]; simpl; [done |].
  by rewrite sort_insert_tied, !filter_cons, IH.
Qed.

Lemma sortBy_stable_sorted l : stable_sorted le l (sortBy cmp l).
Proof.
  split; [apply sortBy_perm |]. split; [apply sortBy_sorted |].
  intros a. apply sortBy_tied.
Qed.

(** A list has one stable sort: whatever algorithm the host runs, it
    returns what [sortBy] returns. *)
Lemma stable_sorted_unique_aux l1 l2 :
  l1 ≡ₚ l2 → StronglySorted le l1 → StronglySorted le l2 →
  (∀ a, filter (tied a) l1 = filter (tied a) l2) → l1 = l2.
Proof.
  revert l2. induction l1 as [|x l1 IH]; intros l2 Hp Hs1 Hs2 Hst.
  - by apply Permutation_nil_l in Hp.
  - destruct l2 as [|y l2]; [by apply Permutation_nil_r in Hp |].
    apply StronglySorted_inv in Hs1 as [Hs1 Hx].
    apply StronglySorted_inv in Hs2 as [Hs2 Hy].
    assert (Hrefl : ∀ z, le z z) by (intros z; by destruct (total le z z)).
    assert (Hxy : le x y).
    { assert (y ∈ x :: l1) as Hin by (rewrite Hp; by left).
      apply elem_of_cons in Hin as [->|Hin]; [done |].
      by eapply Forall_forall in Hx. }
    assert (Hyx : le y x).
    { assert (x ∈ y :: l2) as Hin by (rewrite <- Hp; by left).
      apply elem_of_cons in Hin as [->|Hin]; [done |].
      by eapply Forall_forall in Hy. }
    pose proof (Hst x) as Hhd.
    rewrite (filter_cons_True _ x), (filter_cons_True _ y) in Hhd
      by (split; done).
    injection Hhd as -> Htl. f_equal.
    apply IH; [by eapply Permutation_cons_inv | done | done |].
    intros a. specialize (Hst a). rewrite !filter_cons in Hst.
    destruct (decide (tied a y)); [by injection Hst | done].
Qed.

Lemma stable_sorted_unique l out1 out2 :
  stable_sorted le l out1 → stable_sorted le l out2 → out1 = out2.
Proof.
  intros (Hp1 & Hs1 & Ht1) (Hp2 & Hs2 & Ht2).
  apply stable_sorted_unique_aux; [by rewrite Hp1, Hp2 | done | done |].
  intros a. unfold tied. by rewrite Ht1, Ht2.
Qed.
End SortBy.

(** ** Filtering *)

Lemma year_or_0_publish_year (d : Doc) : year_or_0 d = publish_year d.
Proof.
  unfold year_or_0, publish_year, num_or.
  destruct (first_publish_year d) as [n|]; simpl; [| done].
  by destruct (decide (n = 0)).
Qed.

Lemma year_bound_from (yearFrom : string) :
  parseInt (str_or yearFrom "0") = year_bound yearFrom 0.
Proof. unfold str_or, year_bound. by destruct (decide (yearFrom = "")). Qed.

Lemma year_bound_to (yearTo : string) :
  parseInt (str_or yearTo "9999") = year_bound yearTo 9999.
Proof. unfold str_or, year_bound. by destruct (decide (yearTo = "")). Qed.

(** The comparison the filter's callback makes is the year predicate. *)
Lemma year_test_passes_year (yearFrom yearTo : string) (d : Doc) :
  num_le (parseInt (str_or yearFrom "0")) (Some (year_or_0 d))
  ∧ num_le (Some (year_or_0 d)) (parseInt (str_or yearTo "9999"))
  ↔ passes_year yearFrom yearTo d.
Proof.
  rewrite year_bound_from, year_bound_to, year_or_0_publish_year.
  unfold passes_year.
  destruct (year_bound yearFrom 0), (year_bound yearTo 9999); simpl; tauto.
Qed.

(** The two filters of [filtered] keep the records that pass both
    predicates; the sort then works on that list. *)
Lemma filtered_eq (lc : string → string → Z) (docs : list Doc)
    (lang yearFrom yearTo sort : string) :
  filtered lc docs lang yearFrom yearTo sort
  = if decide (sort = "title")
    then sortBy (cmp_title lc) (matching lang yearFrom yearTo docs)
    else if decide (sort = "year-asc")
    then sortBy cmp_year_asc (matching lang yearFrom yearTo docs)
    else if decide (sort = "year-desc")
    then sortBy cmp_year_desc (matching lang yearFrom yearTo docs)
    else matching lang yearFrom yearTo docs.
Proof.
  unfold filtered, matching.
  set (Y := λ d : Doc,
    num_le (parseInt (str_or yearFrom "0")) (Some (year_or_0 d))
    ∧ num_le (Some (year_or_0 d)) (parseInt (str_or yearTo "9999"))).
  assert (Hout :
    filter Y (if decide (lang = "") then docs
              else filter (λ d, lang ∈ default [] (language d)) docs)
    = filter (λ d, passes_language lang d ∧ passes_year yearFrom yearTo d) docs).
  { destruct (decide (lang = "")) as [Hl|Hl].
    - apply list_filter_iff. intros d. unfold Y, passes_language.
      rewrite year_test_passes_year. tauto.
    - rewrite list_filter_filter. apply list_filter_iff. intros d.
      unfold Y, passes_language. rewrite year_test_passes_year. tauto. }
  by rewrite Hout.
Qed.

Lemma filtered_Permutation (lc : string → string → Z) (docs : list Doc)
    (lang yearFrom yearTo sort : string) :
  filtered lc docs lang yearFrom yearTo sort ≡ₚ matching lang yearFrom yearTo docs.
Proof.
  rewrite filtered_eq.
  repeat case_decide; try done; apply sortBy_perm.
Qed.

(** [C5] Whatever the language filter, the year bounds and the sort order,
    the filtered output holds the records of the accumulated list that pass
    the language predicate and the year predicate, each as often as the list
    has it: a record is in the output exactly when it is in the list and
    passes both. *)
Theorem filtered_sound_complete (lc : string → string → Z) (docs : list Doc)
    (lang yearFrom yearTo sort : string) :
  filtered lc docs lang yearFrom yearTo sort ≡ₚ matching lang yearFrom yearTo docs
  ∧ ∀ d, d ∈ filtered lc docs lang yearFrom yearTo sort
         ↔ d ∈ docs ∧ passes_language lang d ∧ passes_year yearFrom yearTo d.
Proof.
  split; [apply filtered_Permutation |].
  intros d. rewrite filtered_Permutation. unfold matching.
  rewrite list_elem_of_filter. tauto.
Qed.

(** The scenario of the specification: years 1940, 1955 and 1999 under the
    bounds 1950 and 1960. *)
Example filtered_year_scenario :
  filtered by_length
    [book "a" "A" (Some 1940) []; book "b" "B" (Some 1955) [];
     book "c" "C" (Some 1999) []] "" "1950" "1960" "relevance"
  = [book "b" "B" (Some 1955) []].
Proof. reflexivity. Qed.

(** A bound that does not start with a number lets nothing through. *)
Example filtered_year_not_a_number :
  filtered by_length [dune; emma; ulysses] "" "x" "" "relevance" = [].
Proof. reflexivity. Qed.

#[global] Instance year_le_trans : Transitive year_le.
Proof. unfold year_le. intros a b c. lia. Qed.
#[global] Instance year_le_total : Total year_le.
Proof. unfold year_le. intros a b. lia. Qed.
#[global] Instance year_ge_trans : Transitive year_ge.
Proof. unfold year_ge. intros a b c. lia. Qed.
#[global] Instance year_ge_total : Total year_ge.
Proof. unfold year_ge. intros a b. lia. Qed.

Lemma cmp_year_asc_le (a b : Doc) : cmp_year_asc a b ≤ 0 ↔ year_le a b.
Proof.
  unfold cmp_year_asc, year_le. rewrite !year_or_0_publish_year. lia.
Qed.

Lemma cmp_year_desc_le (a b : Doc) : cmp_year_desc a b ≤ 0 ↔ year_ge a b.
Proof.
  unfold cmp_year_desc, year_ge. rewrite !year_or_0_publish_year. lia.
Qed.

(** The two year orders and [relevance] do not involve the host. *)
Lemma filtered_year_asc (lc : string → string → Z) (docs : list Doc)
    (lang yearFrom yearTo : string) :
  stable_sorted year_le (matching lang yearFrom yearTo docs)
    (filtered lc docs lang yearFrom yearTo "year-asc").
Proof.
  rewrite filtered_eq. simpl.
  apply sortBy_stable_sorted; [apply _ .. | apply cmp_year_asc_le].
Qed.

Lemma filtered_year_desc (lc : string → string → Z) (docs : list Doc)
    (lang yearFrom yearTo : string) :
  stable_sorted year_ge (matching lang yearFrom yearTo docs)
    (filtered lc docs lang yearFrom yearTo "year-desc").
Proof.
  rewrite filtered_eq. simpl.
  apply sortBy_stable_sorted; [apply _ .. | apply cmp_year_desc_le].
Qed.

Lemma filtered_unsorted (lc : string → string → Z) (docs : list Doc)
    (lang yearFrom yearTo sort : string) :
  sort ∉ ["title"; "year-asc"; "year-desc"] →
  filtered lc docs lang yearFrom yearTo sort = matching lang yearFrom yearTo docs.
Proof.
  intros Hsort. rewrite filtered_eq.
  repeat case_decide; subst; try done; exfalso; apply Hsort; set_solver.
Qed.

Section SortOrders.
Variable localeCompare : string → string → Z.

(** [localeCompare] orders strings: its sign is that of a total preorder. *)
Hypothesis localeCompare_trans :
  ∀ a b c, localeCompare a b ≤ 0 → localeCompare b c ≤ 0 → localeCompare a c ≤ 0.
Hypothesis localeCompare_total :
  ∀ a b, localeCompare a b ≤ 0 ∨ localeCompare b a ≤ 0.

Lemma title_le_trans : Transitive (title_le localeCompare).
Proof. unfold title_le. intros a b c. apply localeCompare_trans. Qed.

Lemma title_le_total : Total (title_le localeCompare).
Proof. unfold title_le. intros a b. apply localeCompare_total. Qed.

Lemma cmp_title_le (a b : Doc) :
  cmp_title localeCompare a b ≤ 0 ↔ title_le localeCompare a b.
Proof. done. Qed.

(** [C6] On the records that pass the filters, taken in accumulation order:
    sort order [title] gives them sorted stably and ascending by
    [localeCompare] on the titles, a missing title counting as the empty
    string; [year-asc] and [year-desc] give them sorted stably by publish
    year, ascending and descending, a missing year counting as 0; and
    [relevance] gives them as they are. *)
Theorem filtered_sort_orders (docs : list Doc) (lang yearFrom yearTo : string) :
  stable_sorted (title_le localeCompare) (matching lang yearFrom yearTo docs)
    (filtered localeCompare docs lang yearFrom yearTo "title")
  ∧ stable_sorted year_le (matching lang yearFrom yearTo docs)
      (filtered localeCompare docs lang yearFrom yearTo "year-asc")
  ∧ stable_sorted year_ge (matching lang yearFrom yearTo docs)
      (filtered localeCompare docs lang yearFrom yearTo "year-desc")
  ∧ filtered localeCompare docs lang yearFrom yearTo "relevance"
    = matching lang yearFrom yearTo docs.
Proof.
  split; [| split; [apply filtered_year_asc |
            split; [apply filtered_year_desc |
                    apply filtered_unsorted; set_solver]]].
  rewrite filtered_eq. simpl.
  pose proof title_le_trans. pose proof title_le_total.
  apply sortBy_stable_sorted; [apply _ .. | apply cmp_title_le].
Qed.
End SortOrders.

Lemma by_length_trans (a b c : string) :
  by_length a b ≤ 0 → by_length b c ≤ 0 → by_length a c ≤ 0.
Proof. unfold by_length. lia. Qed.

Lemma by_length_total (a b : string) : by_length a b ≤ 0 ∨ by_length b a ≤ 0.
Proof. unfold by_length. lia. Qed.

Lemma filtered_sort_orders_witness :
  stable_sorted (title_le by_length) [ulysses; dune; emma]
    (filtered by_length [ulysses; dune; emma] "" "" "" "title")
  ∧ filtered by_length [ulysses; dune; emma] "" "" "" "title"
    = [dune; emma; ulysses]
  ∧ filtered by_length [emma; ulysses; dune] "" "" "" "year-asc"
    = [ulysses; emma; dune].
Proof.
  split; [| split; reflexivity].
  exact (proj1 (filtered_sort_orders by_length by_length_trans by_length_total
                  [ulysses; dune; emma] "" "" "")).
Defined.

(** ** Favorites *)

Lemma isFav_false (doc : Doc) (favs : list Doc) :
  isFav doc favs = false ↔ ∀ x, x ∈ favs → __id x ≠ __id doc.
Proof.
  unfold isFav. induction favs as [|y favs IH]; simpl.
  - split; [by intros _ x ?%elem_of_nil | done].
  - rewrite orb_false_iff, IH, bool_decide_eq_false. split.
    + intros [Hy Hrest] x [->|Hx]%elem_of_cons; auto.
    + intros Hall. split; [apply Hall; by left |].
      intros x Hx. apply Hall. by right.
Qed.

Lemma isFav_true (doc : Doc) (favs : list Doc) :
  isFav doc favs = true ↔ ∃ x, x ∈ favs ∧ __id x = __id doc.
Proof.
  unfold isFav. rewrite existsb_exists. split.
  - intros (x & Hx%list_elem_of_In & Hid%bool_decide_eq_true). eauto.
  - intros (x & Hx & Hid). exists x.
    by rewrite <- list_elem_of_In, bool_decide_eq_true.
Qed.

(** What [favs.find] returns is decided by [isFav]. *)
Lemma find_isFav (doc : Doc) (favs : list Doc) :
  find (λ x, bool_decide (__id x = __id doc)) favs = None
  ↔ isFav doc favs = false.
Proof.
  unfold isFav. induction favs as [|y favs IH]; simpl; [done |].
  destruct (bool_decide (__id y = __id doc)); simpl; [done | exact IH].
Qed.

Lemma toggleFav_absent (doc : Doc) (favs : list Doc) :
  isFav doc favs = false → toggleFav doc favs = favs ++ [favOf doc].
Proof. intros Hno%find_isFav. unfold toggleFav. by rewrite Hno. Qed.

Lemma toggleFav_present (doc : Doc) (favs : list Doc) :
  isFav doc favs = true →
  toggleFav doc favs = filter (λ x, __id x ≠ __id doc) favs.
Proof.
  intros Hyes. unfold toggleFav.
  destruct (find _ favs) eqn:Hfind; [done |].
  apply find_isFav in Hfind. congruence.
Qed.

Lemma isFav_snoc (doc : Doc) (favs : list Doc) :
  isFav doc (favs ++ [favOf doc]) = true.
Proof.
  apply isFav_true. exists (favOf doc). split; [| done].
  apply elem_of_app. right. by left.
Qed.

Lemma isFav_removed (doc : Doc) (favs : list Doc) :
  isFav doc (filter (λ x, __id x ≠ __id doc) favs) = false.
Proof. apply isFav_false. by intros x [? _]%list_elem_of_filter. Qed.

Lemma filter_other_ids (doc : Doc) (favs : list Doc) :
  isFav doc favs = false → filter (λ x, __id x ≠ __id doc) favs = favs.
Proof.
  intros Hno. rewrite isFav_false in Hno.
  induction favs as [|y favs IH]; [done |].
  rewrite filter_cons_True by (apply Hno; by left).
  f_equal. apply IH. intros x Hx. apply Hno. by right.
Qed.

(** [C3], as the code has it. A toggle of a record that is no favorite
    appends its reduced projection, and a second toggle takes it out again:
    the list is the one before. A toggle of a record that is a favorite
    removes every favorite with its identifier, and a second toggle appends
    the record's projection at the end. *)
Theorem toggleFav_twice (doc : Doc) (favs : list Doc) :
  (isFav doc favs = false →
     toggleFav doc favs = favs ++ [favOf doc]
     ∧ toggleFav doc (toggleFav doc favs) = favs)
  ∧ (isFav doc favs = true →
       toggleFav doc favs = filter (λ x, __id x ≠ __id doc) favs
       ∧ toggleFav doc (toggleFav doc favs)
         = filter (λ x, __id x ≠ __id doc) favs ++ [favOf doc]).
Proof.
  split; intros Hfav.
  - rewrite (toggleFav_absent doc favs Hfav). split; [done |].
    rewrite toggleFav_present by apply isFav_snoc.
    rewrite filter_app, filter_other_ids by done.
    rewrite filter_cons_False by (intros Hne; by apply Hne).
    apply app_nil_r.
  - rewrite (toggleFav_present doc favs Hfav). split; [done |].
    apply toggleFav_absent, isFav_removed.
Qed.

Lemma toggleFav_twice_witness :
  toggleFav dune (toggleFav dune [favOf emma]) = [favOf emma]
  ∧ toggleFav dune (toggleFav dune [favOf dune; favOf emma])
    = [favOf emma; favOf dune].
Proof.
  split.
  - exact (proj2 (proj1 (toggleFav_twice dune [favOf emma]) eq_refl)).
  - exact (proj2 (proj2 (toggleFav_twice dune [favOf dune; favOf emma]) eq_refl)).
Defined.

(** [C3], as the specification words it, fails when the record is a favorite
    that is not the last of the list: two toggles move it to the end. *)
Lemma toggleFav_twice_reorders :
  toggleFav dune (toggleFav dune [favOf dune; favOf emma])
  ≠ [favOf dune; favOf emma].
Proof. by vm_compute. Qed.

(** ** The query builder *)

Lemma form_encode_safe (s : string) : all_form_safe s = true → form_encode s = s.
Proof.
  induction s as [|c r IH]; simpl; [done |].
  intros [Hc Hr]%andb_true_iff. rewrite Hc. f_equal. by apply IH.
Qed.

Lemma pretty_N_char_safe (x : N) : form_safe (pretty_N_char x) = true.
Proof. unfold pretty_N_char. by repeat case_match. Qed.

Lemma pretty_N_go_safe (x : N) (s : string) :
  all_form_safe s = true → all_form_safe (pretty_N_go x s) = true.
Proof.
  revert s. induction (N.lt_wf_0 x) as [x _ IH]; intros s Hs.
  destruct (decide (x = 0)%N) as [->|Hx]; [by rewrite pretty_N_go_0 |].
  rewrite pretty_N_go_step by lia. apply IH.
  - apply N.div_lt; lia.
  - simpl. by rewrite pretty_N_char_safe.
Qed.

Lemma pretty_N_safe (x : N) : all_form_safe (pretty x) = true.
Proof.
  unfold pretty, pretty_N. case_decide; [done |]. by apply pretty_N_go_safe.
Qed.

(** A page number is written with digits and a sign: it is sent as it is. *)
Lemma pretty_Z_safe (p : Z) : all_form_safe (pretty p) = true.
Proof.
  destruct p as [|x|x]; [done | apply pretty_N_safe |].
  change (pretty (Z.neg x)) with ("-" +:+ pretty (N.pos x)).
  simpl. apply pretty_N_safe.
Qed.

Lemma mode_param_chain (mode : string) :
  mode_param mode
  = if decide (mode = "title") then "title"
    else if decide (mode = "author") then "author"
    else if decide (mode = "isbn") then "isbn"
    else if decide (mode = "subject") then "subject"
    else "q".
Proof.
  unfold mode_param.
  repeat case_decide; subst; try done; exfalso; set_solver.
Qed.

Lemma searchParams_eq (mode query : string) (apiPage : Z) :
  searchParams mode query apiPage
  = [(mode_param mode, query); ("page", pretty apiPage);
     ("fields", join "," search_fields); ("limit", "100")].
Proof.
  rewrite mode_param_chain. unfold searchParams. by repeat case_decide.
Qed.

(** [C4] For every mode, query and page number, the parameters of the built
    URL are: the one search parameter the mode selects ([title], [author],
    [isbn], [subject], or [q] for any other mode) with the query as its
    value, then [page] with the page number, [fields] with the fixed field
    list and [limit] with the fixed hint; of the five search parameters it
    holds that one and no other; and the URL is the endpoint followed by
    these parameters, form-urlencoded. *)
Theorem buildSearchURL_params (mode query : string) (apiPage : Z) :
  searchParams mode query apiPage
  = [(mode_param mode, query); ("page", pretty apiPage);
     ("fields", join "," search_fields); ("limit", "100")]
  ∧ filter (λ name, name ∈ (searchParams mode query apiPage).*1) search_param_names
    = [mode_param mode]
  ∧ buildSearchURL mode query apiPage
    = "https://openlibrary.org/search.json?" +:+ mode_param mode +:+ "="
      +:+ form_encode query +:+ "&page=" +:+ pretty apiPage
      +:+ "&fields=key%2Ctitle%2Cauthor_name%2Cfirst_publish_year%2Ccover_i%2Cedition_key%2Clanguage%2Csubject%2Cisbn"
      +:+ "&limit=100".
Proof.
  split; [apply searchParams_eq |].
  rewrite searchParams_eq. split.
  - rewrite mode_param_chain. unfold search_param_names.
    repeat case_decide; by vm_compute.
  - unfold buildSearchURL. rewrite searchParams_eq. simpl.
    rewrite (form_encode_safe (pretty apiPage)) by apply pretty_Z_safe.
    rewrite mode_param_chain. repeat case_decide; reflexivity.
Qed.

(** The scenario of the specification: mode [title], query [Dune], page 1. *)
Example buildSearchURL_scenario :
  buildSearchURL "title" "Dune" 1
  = "https://openlibrary.org/search.json?title=Dune&page=1&fields=key%2Ctitle%2Cauthor_name%2Cfirst_publish_year%2Ccover_i%2Cedition_key%2Clanguage%2Csubject%2Cisbn&limit=100".
Proof. reflexivity. Qed.

(** ** The result accumulator *)

Lemma str_or_nonempty (a b : string) : b ≠ "" → str_or a b ≠ "".
Proof. intros Hb. unfold str_or. by case_decide. Qed.

Lemma fetchPage_settle_loading (p : Z) (o : FetchOutcome) (s : AppState) :
  loading (fetchPage_settle p o s) = false.
Proof. by destruct o. Qed.

Lemma fetchPage_settle_failed (p : Z) (f : Failure) (s : AppState) :
  docs (fetchPage_settle p (Failed f) s) = docs s
  ∧ numFound (fetchPage_settle p (Failed f) s) = numFound s
  ∧ error (fetchPage_settle p (Failed f) s)
    = str_or (failure_message f) "Something went wrong".
Proof. done. Qed.

(** [C7] Whatever the network answers, [fetchPage] ends with the loading
    flag cleared; and when the fetch fails (the request is rejected, the
    status is not a success, the body is not JSON, or reading it throws), it
    ends with the accumulated records and the total-match count it started
    with, and with an error message that is not empty: the message of the
    failure, or a fixed text when the failure has none. *)
Theorem fetchPage_failure_keeps_results (fetch : string → FetchOutcome) (p : Z)
    (s : AppState) :
  loading (fetchPage fetch p s) = false
  ∧ ∀ f, fetch (fetchPage_url p s) = Failed f →
      docs (fetchPage fetch p s) = docs s
      ∧ numFound (fetchPage fetch p s) = numFound s
      ∧ error (fetchPage fetch p s)
        = str_or (failure_message f) "Something went wrong"
      ∧ error (fetchPage fetch p s) ≠ "".
Proof.
  split; [apply fetchPage_settle_loading |].
  intros f Hf. unfold fetchPage. rewrite Hf.
  destruct (fetchPage_settle_failed p f (fetchPage_begin s)) as (Hd & Hn & He).
  rewrite Hd, Hn, He. repeat split. by apply str_or_nonempty.
Qed.

Lemma fetchPage_failure_keeps_results_witness :
  docs (fetchPage (λ _, Failed (HttpStatus 404)) 2 loaded) = [dune; emma]
  ∧ numFound (fetchPage (λ _, Failed (HttpStatus 404)) 2 loaded) = 57
  ∧ error (fetchPage (λ _, Failed (HttpStatus 404)) 2 loaded) = "HTTP 404"
  ∧ loading (fetchPage (λ _, Failed (HttpStatus 404)) 2 loaded) = false.
Proof.
  destruct (fetchPage_failure_keeps_results
              (λ _, Failed (HttpStatus 404)) 2 loaded) as [Hl Hfail].
  destruct (Hfail (HttpStatus 404) eq_refl) as (Hd & Hn & He & _).
  split; [exact Hd | split; [exact Hn | split; [exact He | exact Hl]]].
Defined.

Lemma fetchPage_settle_numFound (p : Z) (data : SearchData) (s : AppState) :
  numFound (fetchPage_settle p (Body data) s)
  = num_or (data_numFound data)
      (Z.of_nat (length (default [] (data_docs data)))).
Proof. simpl. by rewrite length_fmap. Qed.

(** [C8], as the code has it. After a successful fetch the total-match count
    is the response's [numFound] when that is present and not 0; when it is
    absent, or 0, the count is the number of records of the fetched batch,
    those that were accumulated before included. *)
Theorem fetchPage_numFound (fetch : string → FetchOutcome) (p : Z)
    (s : AppState) (data : SearchData) :
  fetch (fetchPage_url p s) = Body data →
  (∀ n, data_numFound data = Some n → n ≠ 0 →
        numFound (fetchPage fetch p s) = n)
  ∧ (data_numFound data = None ∨ data_numFound data = Some 0 →
       numFound (fetchPage fetch p s)
       = Z.of_nat (length (default [] (data_docs data)))).
Proof.
  intros Hbody. unfold fetchPage. rewrite Hbody, fetchPage_settle_numFound.
  unfold num_or. split.
  - intros n -> Hn. by rewrite decide_False.
  - by intros [-> | ->].
Qed.

Lemma fetchPage_numFound_witness :
  numFound (fetchPage (λ _, Body repeated) 2 loaded) = 2
  ∧ numFound (fetchPage (λ _, Body zero_total) 2 loaded) = 1.
Proof.
  split.
  - exact (proj2 (fetchPage_numFound (λ _, Body repeated) 2 loaded repeated
                    eq_refl) (or_introl eq_refl)).
  - exact (proj2 (fetchPage_numFound (λ _, Body zero_total) 2 loaded zero_total
                    eq_refl) (or_intror eq_refl)).
Defined.

(** [C8], as the specification words it, fails for a batch that repeats
    accumulated records: the fallback counts the whole batch, not the
    records the merge added. *)
Lemma fetchPage_numFound_counts_batch :
  numFound (fetchPage (λ _, Body repeated) 2 loaded)
  ≠ Z.of_nat (length (docs (fetchPage (λ _, Body repeated) 2 loaded))
              - length (docs loaded)).
Proof. by vm_compute. Qed.

(** A total of 0 that comes with records is replaced by their number. *)
Example fetchPage_numFound_zero :
  numFound (fetchPage (λ _, Body zero_total) 2 loaded) = 1.
Proof. reflexivity. Qed.

(** ** The local page number *)

Lemma totalPagesOf_ge_1 (perPage : Z) (l : list Doc) : 1 ≤ totalPagesOf perPage l.
Proof. unfold totalPagesOf. lia. Qed.

Lemma totalPagesOf_mono (perPage : Z) (l1 l2 : list Doc) :
  0 < perPage → (length l1 ≤ length l2)%nat →
  totalPagesOf perPage l1 ≤ totalPagesOf perPage l2.
Proof.
  intros HP Hlen. unfold totalPagesOf.
  pose proof (ceil_div_mono (Z.of_nat (length l1)) (Z.of_nat (length l2))
                perPage HP ltac:(lia)).
  lia.
Qed.

Lemma filtered_length (lc : string → string → Z) (docs : list Doc)
    (lang yearFrom yearTo sort : string) :
  length (filtered lc docs lang yearFrom yearTo sort)
  = length (matching lang yearFrom yearTo docs).
Proof. by rewrite filtered_Permutation. Qed.

(** Appending records cannot shrink the filtered list. *)
Lemma filtered_length_app (lc : string → string → Z) (docs added : list Doc)
    (lang yearFrom yearTo sort : string) :
  (length (filtered lc docs lang yearFrom yearTo sort)
   ≤ length (filtered lc (docs ++ added) lang yearFrom yearTo sort))%nat.
Proof.
  rewrite !filtered_length. unfold matching.
  rewrite filter_app, length_app. lia.
Qed.

Section Reachable.
Variable localeCompare : string → string → Z.

Lemma totalPages_ge_1 (s : AppState) : 1 ≤ totalPages localeCompare s.
Proof. apply totalPagesOf_ge_1. Qed.

Lemma initial_invariant (stored : list Doc) :
  docs_distinct (initial stored) ∧ page_in_range localeCompare (initial stored).
Proof.
  split; [constructor |]. split; [done |]. apply totalPages_ge_1.
Qed.

Lemma fetchPage_settle_invariant (p : Z) (o : FetchOutcome) (s : AppState) :
  docs_distinct s ∧ page_in_range localeCompare s →
  docs_distinct (fetchPage_settle p o s)
  ∧ page_in_range localeCompare (fetchPage_settle p o s).
Proof.
  intros [Hnd Hpage]. destruct o as [f|data]; [done |].
  split; [apply uniqueBy_NoDup |].
  destruct Hpage as [Hlo Hhi]. split; [done |].
  etrans; [exact Hhi |].
  unfold totalPages, filteredOf. simpl. unfold mergeDocs.
  destruct (uniqueBy_app_prefix __id (docs s)
              (withId <$> default [] (data_docs data)) Hnd) as [added ->].
  apply totalPagesOf_mono; [done |]. apply filtered_length_app.
Qed.

Lemma step_invariant (s : AppState) (e : Event) :
  docs_distinct s ∧ page_in_range localeCompare s →
  docs_distinct (step localeCompare s e)
  ∧ page_in_range localeCompare (step localeCompare s e).
Proof.
  intros Hinv. pose proof Hinv as [Hnd [Hlo Hhi]].
  destruct e; simpl; try done.
  - (* SubmitSearch *)
    case_decide; [done |]. split; [constructor |].
    split; [done |]. apply totalPages_ge_1.
  - (* ClickLoadMore *)
    by case_decide.
  - (* FetchSettled *)
    by apply fetchPage_settle_invariant.
  - (* ChangeLang *)
    split; [done |]. split; [done |]. apply totalPages_ge_1.
  - (* ChangeYearFrom *)
    split; [done |]. split; [done |]. apply totalPages_ge_1.
  - (* ChangeYearTo *)
    split; [done |]. split; [done |]. apply totalPages_ge_1.
  - (* ChangeSort *)
    split; [done |]. split; [done |]. apply totalPages_ge_1.
  - (* ClickPrevious *)
    unfold onPrevious. case_decide; [done |].
    split; [done |]. unfold page_in_range. simpl.
    change (totalPages localeCompare (setUiPage _ s))
      with (totalPages localeCompare s). lia.
  - (* ClickNext *)
    unfold onNext. case_decide; [done |].
    split; [done |]. unfold page_in_range. simpl.
    change (totalPages localeCompare (setUiPage _ s))
      with (totalPages localeCompare s). lia.
Qed.

Lemma run_invariant (es : list Event) (s : AppState) :
  docs_distinct s ∧ page_in_range localeCompare s →
  docs_distinct (run localeCompare s es)
  ∧ page_in_range localeCompare (run localeCompare s es).
Proof.
  revert s. induction es as [|e es IH]; intros s Hinv; [done |].
  simpl. by apply IH, step_invariant.
Qed.

Lemma reachable_invariant (s : AppState) :
  reachable localeCompare s →
  docs_distinct s ∧ page_in_range localeCompare s.
Proof.
  intros (stored & es & ->). apply run_invariant, initial_invariant.
Qed.

(** [C9], as the code has it. A change of the language filter, of a year
    bound or of the sort order sets the local page number to 1; and in every
    state the application can reach, the local page number is at least 1 and
    at most the total-page count, which is
    [max 1 (ceil (filtered-count / page-size))]. *)
Theorem uiPage_in_range :
  (∀ v s, uiPage (onLangChange v s) = 1
          ∧ uiPage (onYearFromChange v s) = 1
          ∧ uiPage (onYearToChange v s) = 1
          ∧ uiPage (onSortChange v s) = 1)
  ∧ ∀ s, reachable localeCompare s →
      1 ≤ uiPage s
      ≤ Z.max 1 (ceil_div (Z.of_nat (length (filteredOf localeCompare s))) PER_PAGE).
Proof.
  split; [done |].
  intros s Hs. by apply reachable_invariant in Hs as [_ Hpage].
Qed.
End Reachable.

(** The two handlers that fetch are runs of two events: the handler's own
    part, then the settling of its request. *)
Lemma handleSearch_run (lc : string → string → Z) (fetch : string → FetchOutcome)
    (s : AppState) :
  trim (query s) ≠ "" →
  handleSearch fetch s
  = run lc s [SubmitSearch; FetchSettled 1 (fetch (fetchPage_url 1 s))].
Proof.
  intros Hq. unfold handleSearch, run. simpl. by rewrite !decide_False.
Qed.

Lemma loadMore_run (lc : string → string → Z) (fetch : string → FetchOutcome)
    (s : AppState) :
  docs s ≠ [] → loading s = false →
  loadMore fetch s
  = run lc s [ClickLoadMore;
              FetchSettled (apiPage s + 1) (fetch (fetchPage_url (apiPage s + 1) s))].
Proof.
  intros Hd Hl. unfold loadMore, run. simpl.
  rewrite decide_False; [done |]. intros [? | ?]; congruence.
Qed.

Lemma session_reachable : reachable by_length (run by_length (initial []) session).
Proof. by exists [], session. Qed.

Lemma uiPage_in_range_witness :
  1 ≤ uiPage (run by_length (initial []) session)
  ≤ Z.max 1 (ceil_div (Z.of_nat (length
       (filteredOf by_length (run by_length (initial []) session)))) PER_PAGE).
Proof.
  exact (proj2 (uiPage_in_range by_length)
           (run by_length (initial []) session) session_reachable).
Defined.

(** [C9], as the specification words it, fails in the first state: nothing
    is fetched, the ceiling of [0 / 20] is 0, and the local page number
    is 1. *)
Lemma uiPage_above_ceil_when_empty :
  reachable by_length (initial [])
  ∧ ¬ (1 ≤ uiPage (initial [])
       ≤ ceil_div (Z.of_nat (length (filteredOf by_length (initial [])))) PER_PAGE).
Proof.
  split; [by exists [], [] |].
  vm_compute. intros [_ H]. by apply H.
Qed.

(** * Further properties of the code *)

(** ** Deduplication, continued *)

Section UniqueByMore.
Context {A K : Type} `{Countable K}.
Variable key : A → K.

Implicit Types (l : list A).

(** What a merge appends to a duplicate-free list: the new elements,
    deduplicated against the keys the list has. *)
Lemma uniqueBy_app_added l1 l2 :
  NoDup (key <$> l1) →
  uniqueBy (l1 ++ l2) key
  = l1 ++ uniqueBy_from key (list_to_set (key <$> l1)) l2.
Proof.
  intros Hnd. unfold uniqueBy.
  rewrite uniqueBy_from_app, uniqueBy_from_id by (done || set_solver).
  do 2 f_equal. set_solver.
Qed.

(** [X1] Deduplicating twice is deduplicating once, and the lists that
    [uniqueBy] returns unchanged are exactly those whose keys are pairwise
    distinct. *)
Theorem uniqueBy_idempotent l :
  uniqueBy (uniqueBy l key) key = uniqueBy l key
  ∧ (uniqueBy l key = l ↔ NoDup (key <$> l)).
Proof.
  assert (Hid : ∀ l', NoDup (key <$> l') → uniqueBy l' key = l').
  { intros l' Hnd. apply uniqueBy_from_id; [done | set_solver]. }
  split; [apply Hid, uniqueBy_NoDup |].
  split; [| apply Hid].
  intros Heq. rewrite <- Heq. apply uniqueBy_NoDup.
Qed.
End UniqueByMore.

(** ** The result accumulator, continued *)

(** [X2] Records without a catalog key all get the same identifier
    ([undefined]), so a response none of whose records has a key adds at
    most one record to a duplicate-free list. *)
Theorem fetchPage_settle_keyless (p : Z) (data : SearchData) (s : AppState) :
  docs_distinct s →
  (∀ d, d ∈ default [] (data_docs data) → key d = None) →
  (length (docs (fetchPage_settle p (Body data) s)) ≤ length (docs s) + 1)%nat.
Proof.
  intros Hnd Hkey. simpl. unfold mergeDocs.
  rewrite (uniqueBy_app_added __id) by exact Hnd.
  set (added := uniqueBy_from __id _ _).
  assert (Hnone : ∀ d, d ∈ added → __id d = None).
  { intros d [Hd _]%uniqueBy_from_elem.
    apply list_elem_of_fmap in Hd as (d0 & -> & Hd0). simpl. by apply Hkey. }
  assert (Hadded : NoDup (__id <$> added)) by apply uniqueBy_from_NoDup.
  rewrite length_app.
  destruct added as [|a [|b rest]]; simpl; [lia | lia |].
  exfalso. rewrite !fmap_cons in Hadded.
  apply NoDup_cons in Hadded as [Hin _]. apply Hin.
  rewrite (Hnone a), (Hnone b) by set_solver. by left.
Qed.

Lemma fetchPage_settle_keyless_witness :
  (length (docs (fetchPage_settle 2
     (Body {| data_docs := Some [keyless "Beowulf"; keyless "Edda"];
              data_numFound := None |}) loaded))
   ≤ length (docs loaded) + 1)%nat.
Proof.
  apply fetchPage_settle_keyless.
  - apply (bool_decide_unpack _). by vm_compute.
  - intros d Hd. simpl in Hd.
    repeat (apply elem_of_cons in Hd as [->|Hd]; [by vm_compute |]).
    by apply elem_of_nil in Hd.
Defined.

Lemma fetchPage_settle_prefix (p : Z) (o : FetchOutcome) (s : AppState) :
  docs_distinct s → docs s `prefix_of` docs (fetchPage_settle p o s).
Proof.
  intros Hnd. destruct o as [f|data]; simpl; [done |].
  unfold mergeDocs. rewrite (uniqueBy_app_added __id) by exact Hnd.
  by eexists.
Qed.

(** [X3] In every state the application can reach, a load-more keeps the
    accumulated list as a prefix of the new one, whatever the network
    answers: records already fetched are neither dropped nor moved. *)
Theorem loadMore_keeps_prefix (lc : string → string → Z)
    (fetch : string → FetchOutcome) (s : AppState) :
  reachable lc s → docs s `prefix_of` docs (loadMore fetch s).
Proof.
  intros [Hnd _]%reachable_invariant.
  unfold loadMore, fetchPage.
  by apply (fetchPage_settle_prefix _ _ (fetchPage_begin s)).
Qed.

Lemma loadMore_keeps_prefix_witness :
  docs (run by_length (initial []) session)
  `prefix_of` docs (loadMore (λ _, Body zero_total)
                      (run by_length (initial []) session)).
Proof.
  apply (loadMore_keeps_prefix by_length). by exists [], session.
Defined.

Lemma step_ids_are_keys (lc : string → string → Z) (s : AppState) (e : Event) :
  ids_are_keys s → ids_are_keys (step lc s e).
Proof.
  intros Hids. destruct e; simpl; try done.
  - case_decide; [done |]. by intros d ?%elem_of_nil.
  - by case_decide.
  - destruct o as [f|data]; [done |].
    intros d Hd. simpl in Hd. unfold mergeDocs, uniqueBy in Hd.
    apply uniqueBy_from_elem in Hd as [Hd _].
    apply elem_of_app in Hd as [Hd|Hd]; [by apply Hids |].
    by apply list_elem_of_fmap in Hd as (d0 & -> & _).
  - unfold onPrevious. by case_decide.
  - unfold onNext. by case_decide.
Qed.

Lemma run_ids_are_keys (lc : string → string → Z) (es : list Event) (s : AppState) :
  ids_are_keys s → ids_are_keys (run lc s es).
Proof.
  revert s. induction es as [|e es IH]; intros s Hids; [done |].
  simpl. by apply IH, step_ids_are_keys.
Qed.

(** [X4] In every state the application can reach, each accumulated record
    has its catalog key as its identifier, and no two accumulated records
    have the same catalog key. *)
Theorem reachable_keys_distinct (lc : string → string → Z) (s : AppState) :
  reachable lc s →
  (∀ d, d ∈ docs s → __id d = key d) ∧ NoDup (key <$> docs s).
Proof.
  intros Hs.
  assert (Hids : ids_are_keys s).
  { destruct Hs as (stored & es & ->). apply run_ids_are_keys.
    by intros d ?%elem_of_nil. }
  split; [exact Hids |].
  apply reachable_invariant in Hs as [Hnd _]. unfold docs_distinct in Hnd.
  assert (Heq : __id <$> docs s = key <$> docs s); [| by rewrite <- Heq].
  apply list_fmap_ext. intros i d Hd. apply Hids.
  by eapply list_elem_of_lookup_2.
Qed.

Lemma reachable_keys_distinct_witness :
  NoDup (key <$> docs (run by_length (initial []) session)).
Proof.
  apply (reachable_keys_distinct by_length). by exists [], session.
Defined.

(** A query of white space only, the white space beyond ASCII included, is
    blank: [handleSearch] does nothing. *)
Example handleSearch_blank :
  handleSearch (λ _, Body zero_total)
    (setQuery (String "194" (String "160" " ")) loaded)
  = setQuery (String "194" (String "160" " ")) loaded.
Proof. reflexivity. Qed.

(** [X5] A search with a query that is not blank, run to its end with no
    other event in between (the submit, then the settling of its request),
    when the fetch succeeds, replaces the accumulated list by the
    deduplicated response, whatever was accumulated before; both page
    numbers are 1 and no error is shown; the filters, the sort order and the
    favorites are as they were. *)
Theorem handleSearch_replaces (lc : string → string → Z)
    (fetch : string → FetchOutcome) (s : AppState) (data : SearchData) :
  trim (query s) ≠ "" →
  fetch (fetchPage_url 1 s) = Body data →
  handleSearch fetch s = run lc s [SubmitSearch; FetchSettled 1 (Body data)]
  ∧ docs (handleSearch fetch s)
    = uniqueBy (withId <$> default [] (data_docs data)) __id
  ∧ apiPage (handleSearch fetch s) = 1
  ∧ uiPage (handleSearch fetch s) = 1
  ∧ error (handleSearch fetch s) = ""
  ∧ loading (handleSearch fetch s) = false
  ∧ (lang (handleSearch fetch s), yearFrom (handleSearch fetch s),
     yearTo (handleSearch fetch s), sort (handleSearch fetch s))
    = (lang s, yearFrom s, yearTo s, sort s)
  ∧ favs (handleSearch fetch s) = favs s.
Proof.
  intros Hq Hbody. rewrite (handleSearch_run lc fetch s Hq), Hbody.
  split; [done |]. unfold run. simpl. by rewrite decide_False.
Qed.

Lemma handleSearch_replaces_witness :
  docs (handleSearch (λ _, Body zero_total) loaded) = [ulysses].
Proof.
  refine (proj1 (proj2 (handleSearch_replaces by_length (λ _, Body zero_total)
                          loaded zero_total _ eq_refl))).
  by vm_compute.
Defined.

(** [X6] A search with a query that is not blank, run to its end with no
    other event in between, when the fetch fails, leaves no results: the
    accumulated list is empty and the total-match count is 0, whatever was
    accumulated before, and the error message is not empty. The results are
    gone from the submit on, before the request settles. *)
Theorem handleSearch_failure_clears (lc : string → string → Z)
    (fetch : string → FetchOutcome) (s : AppState) (f : Failure) :
  trim (query s) ≠ "" →
  fetch (fetchPage_url 1 s) = Failed f →
  handleSearch fetch s = run lc s [SubmitSearch; FetchSettled 1 (Failed f)]
  ∧ docs (step lc s SubmitSearch) = []
  ∧ numFound (step lc s SubmitSearch) = 0
  ∧ docs (handleSearch fetch s) = []
  ∧ numFound (handleSearch fetch s) = 0
  ∧ apiPage (handleSearch fetch s) = 1
  ∧ uiPage (handleSearch fetch s) = 1
  ∧ error (handleSearch fetch s) ≠ "".
Proof.
  intros Hq Hfail. rewrite (handleSearch_run lc fetch s Hq), Hfail.
  split; [done |]. unfold run. simpl. rewrite decide_False by done.
  repeat split. simpl. by apply str_or_nonempty.
Qed.

Lemma handleSearch_failure_clears_witness :
  docs (handleSearch (λ _, Failed (HttpStatus 503)) loaded) = []
  ∧ numFound (handleSearch (λ _, Failed (HttpStatus 503)) loaded) = 0.
Proof.
  destruct (handleSearch_failure_clears by_length
              (λ _, Failed (HttpStatus 503)) loaded (HttpStatus 503))
    as (_ & _ & _ & Hd & Hn & _); [by vm_compute | done |].
  split; [exact Hd | exact Hn].
Defined.

(** [X7] When a load-more fails, the API page number stays as it was, so the
    next load-more asks for the same URL again. *)
Theorem loadMore_failure_retries (fetch : string → FetchOutcome) (s : AppState)
    (f : Failure) :
  fetch (fetchPage_url (apiPage s + 1) s) = Failed f →
  apiPage (loadMore fetch s) = apiPage s
  ∧ fetchPage_url (apiPage (loadMore fetch s) + 1) (loadMore fetch s)
    = fetchPage_url (apiPage s + 1) s.
Proof. intros Hfail. unfold loadMore, fetchPage. by rewrite Hfail. Qed.

Lemma loadMore_failure_retries_witness :
  fetchPage_url (apiPage (loadMore (λ _, Failed (HttpStatus 503)) loaded) + 1)
    (loadMore (λ _, Failed (HttpStatus 503)) loaded)
  = fetchPage_url 2 loaded.
Proof.
  exact (proj2 (loadMore_failure_retries (λ _, Failed (HttpStatus 503)) loaded
                  (HttpStatus 503) eq_refl)).
Defined.

(** ** The query builder, continued *)

Lemma string_app_inv_head (s t1 t2 : string) : s +:+ t1 = s +:+ t2 → t1 = t2.
Proof. induction s as [|c s IH]; simpl; [done |]. intros [= Heq]. auto. Qed.

(** Two strings that agree up to and after the first [c] are cut at the same
    place. *)
Lemma string_split_first (c : ascii) (s1 s2 t1 t2 : string) :
  string_has c s1 = false → string_has c s2 = false →
  s1 +:+ String c t1 = s2 +:+ String c t2 → s1 = s2 ∧ t1 = t2.
Proof.
  revert s2. induction s1 as [|x s1 IH]; intros [|y s2]; simpl.
  - by intros _ _ [= ->].
  - intros _ [Hy _]%orb_false_iff [= <- _]. by rewrite bool_decide_eq_false in Hy.
  - intros [Hx _]%orb_false_iff _ [= -> _]. by rewrite bool_decide_eq_false in Hx.
  - intros [_ H1]%orb_false_iff [_ H2]%orb_false_iff [= -> Heq].
    destruct (IH s2 H1 H2 Heq) as [-> ->]. done.
Qed.

(** The encoding works byte by byte. *)
Lemma form_encode_cons (c : ascii) (r : string) :
  form_encode (String c r) = form_encode (String c "") +:+ form_encode r.
Proof.
  simpl. destruct (form_safe c); [done |]. by destruct (decide (c = " "%char)).
Qed.

Lemma string_has_app (c : ascii) (s t : string) :
  string_has c (s +:+ t) = string_has c s || string_has c t.
Proof.
  induction s as [|x s IH]; simpl; [done |]. by rewrite IH, orb_assoc.
Qed.

(** Facts about single bytes, checked on each of the 256. *)
Lemma form_safe_plain (c : ascii) :
  form_safe c = true → c ≠ "+"%char ∧ c ≠ "%"%char.
Proof.
  destruct c as [[] [] [] [] [] [] [] []]; vm_compute; intros Hs;
    first [discriminate Hs | split; discriminate].
Qed.

Lemma hex_digits_value (c : ascii) :
  hex_value (hex_digit (Ascii.N_of_ascii c / 16)) = Some (Ascii.N_of_ascii c / 16)%N
  ∧ hex_value (hex_digit (Ascii.N_of_ascii c mod 16))
    = Some (Ascii.N_of_ascii c mod 16)%N
  ∧ Ascii.ascii_of_N (16 * (Ascii.N_of_ascii c / 16) + Ascii.N_of_ascii c mod 16)
    = c.
Proof.
  destruct c as [[] [] [] [] [] [] [] []]; vm_compute; repeat split.
Qed.

Lemma form_encode_char_no_amp (c : ascii) :
  string_has "&" (form_encode (String c "")) = false.
Proof. destruct c as [[] [] [] [] [] [] [] []]; vm_compute; reflexivity. Qed.

(** One step of the decoding, in its three cases. *)
Lemma form_decode_plus (r : string) :
  form_decode (String "+" r) = String " " (form_decode r).
Proof. reflexivity. Qed.

Lemma form_decode_percent (a b : ascii) (r : string) (hi lo : N) :
  hex_value a = Some hi → hex_value b = Some lo →
  form_decode (String "%" (String a (String b r)))
  = String (Ascii.ascii_of_N (16 * hi + lo)) (form_decode r).
Proof.
  intros Ha Hb.
  change (form_decode (String "%" (String a (String b r))))
    with (match hex_value a, hex_value b with
          | Some hi, Some lo =>
              String (Ascii.ascii_of_N (16 * hi + lo)) (form_decode r)
          | _, _ => String "%" (form_decode (String a (String b r)))
          end).
  by rewrite Ha, Hb.
Qed.

Lemma form_decode_plain (c : ascii) (r : string) :
  c ≠ "+"%char → c ≠ "%"%char →
  form_decode (String c r) = String c (form_decode r).
Proof. intros H1 H2. simpl. by rewrite !decide_False. Qed.

(** Decoding undoes the encoding. *)
Lemma form_decode_encode (s : string) : form_decode (form_encode s) = s.
Proof.
  induction s as [|c r IH]; [done |]. simpl.
  destruct (form_safe c) eqn:Hsafe.
  - apply form_safe_plain in Hsafe as [H1 H2].
    by rewrite form_decode_plain, IH.
  - destruct (decide (c = " "%char)) as [-> | _].
    + by rewrite form_decode_plus, IH.
    + destruct (hex_digits_value c) as (Hhi & Hlo & Hc).
      by rewrite (form_decode_percent _ _ _ _ _ Hhi Hlo), Hc, IH.
Qed.

Lemma form_encode_inj (s1 s2 : string) : form_encode s1 = form_encode s2 → s1 = s2.
Proof.
  intros Heq. by rewrite <- (form_decode_encode s1), Heq, form_decode_encode.
Qed.

Lemma form_encode_no_amp (s : string) : string_has "&" (form_encode s) = false.
Proof.
  induction s as [|c r IH]; [done |].
  by rewrite form_encode_cons, string_has_app, form_encode_char_no_amp, IH.
Qed.

Lemma all_form_safe_no_amp (s : string) :
  all_form_safe s = true → string_has "&" s = false.
Proof.
  induction s as [|c r IH]; [done |]. simpl.
  intros [Hc Hr]%andb_true_iff. rewrite (IH Hr), orb_false_r.
  apply bool_decide_eq_false. by intros ->.
Qed.

Lemma buildSearchURL_eq (mode query : string) (apiPage : Z) :
  buildSearchURL mode query apiPage
  = "https://openlibrary.org/search.json?"
    +:+ mode_param mode +:+ String "=" (form_encode query
    +:+ String "&" ("page=" +:+ pretty apiPage
    +:+ String "&" "fields=key%2Ctitle%2Cauthor_name%2Cfirst_publish_year%2Ccover_i%2Cedition_key%2Clanguage%2Csubject%2Cisbn&limit=100")).
Proof.
  unfold buildSearchURL. rewrite searchParams_eq. simpl.
  rewrite (form_encode_safe (pretty apiPage)) by apply pretty_Z_safe.
  rewrite mode_param_chain. repeat case_decide; reflexivity.
Qed.

Lemma mode_param_no_eq (mode : string) : string_has "=" (mode_param mode) = false.
Proof. rewrite mode_param_chain. by repeat case_decide. Qed.

(** [X8] Two requests have the same URL exactly when they have the same
    search parameter, the same query and the same page number: no two
    queries are sent as the same search. *)
Theorem buildSearchURL_inj (mode mode' query query' : string) (p p' : Z) :
  buildSearchURL mode query p = buildSearchURL mode' query' p'
  ↔ mode_param mode = mode_param mode' ∧ query = query' ∧ p = p'.
Proof.
  split.
  - rewrite !buildSearchURL_eq. intros Heq%string_app_inv_head.
    apply string_split_first in Heq as [Hname Heq]; [| apply mode_param_no_eq ..].
    apply string_split_first in Heq as [Hq Heq]; [| apply form_encode_no_amp ..].
    apply string_app_inv_head in Heq.
    apply string_split_first in Heq as [Hp _];
      [| apply all_form_safe_no_amp, pretty_Z_safe ..].
    split; [done |]. split; [by apply form_encode_inj |].
    by apply (inj pretty).
  - intros (Hname & -> & ->). by rewrite !buildSearchURL_eq, Hname.
Qed.

(** ** Pagination, continued *)

(** Cutting a list into [n] pieces of [size] elements loses nothing, when
    [n] pieces are enough. *)
Lemma chunks_concat {A} (size n : nat) (l : list A) :
  (length l ≤ n * size)%nat →
  concat ((λ i, take size (drop (i * size) l)) <$> seq 0 n) = l.
Proof.
  revert l. induction n as [|n IH]; intros l Hlen.
  - simpl. symmetry. apply length_zero_iff_nil. lia.
  - simpl seq. rewrite fmap_cons, <- fmap_S_seq, <- list_fmap_compose.
    simpl concat. rewrite drop_0.
    transitivity (take size l ++ drop size l); [| apply take_drop].
    f_equal.
    etrans; [| apply (IH (drop size l)); rewrite length_drop; lia].
    f_equal. apply list_fmap_ext. intros _ i _. simpl.
    by rewrite drop_drop.
Qed.

(** [X9] The local pages, from the first to the last, put one after the
    other give the filtered list: every filtered record is on a page, once,
    and the pages keep the order. *)
Theorem pagesOf_concat (P : Z) (l : list Doc) :
  0 < P → concat (pagesOf P l) = l.
Proof.
  intros HP. unfold pagesOf.
  set (T := Z.to_nat (totalPagesOf P l)).
  rewrite <- fmap_S_seq, <- list_fmap_compose.
  etrans; [| apply (chunks_concat (Z.to_nat P) T l)].
  - f_equal. apply list_fmap_ext. intros _ i _. simpl.
    rewrite pageDocsOf_window by lia. do 2 f_equal. lia.
  - pose proof (ceil_div_is_ceil (Z.of_nat (length l)) P HP) as [_ Hc].
    unfold T, totalPagesOf. nia.
Qed.

Lemma pagesOf_concat_witness : concat (pagesOf PER_PAGE shelf) = shelf.
Proof. exact (pagesOf_concat PER_PAGE shelf eq_refl). Defined.

Lemma slice_sublist {A} (l : list A) (start end_ : Z) :
  slice l start end_ `sublist_of` l.
Proof.
  unfold slice. etrans; [apply sublist_take | apply sublist_drop].
Qed.

(** [X10] In every state the application can reach, no two records of the
    filtered list, and so no two cards of the visible page, have the same
    identifier. *)
Theorem pageDocs_distinct (lc : string → string → Z) (s : AppState) :
  reachable lc s →
  NoDup (__id <$> filteredOf lc s) ∧ NoDup (__id <$> pageDocs lc s).
Proof.
  intros [Hnd _]%reachable_invariant.
  assert (Hf : NoDup (__id <$> filteredOf lc s)).
  { unfold filteredOf. rewrite filtered_Permutation.
    eapply sublist_NoDup; [exact Hnd |].
    apply fmap_sublist, sublist_filter. }
  split; [exact Hf |].
  eapply sublist_NoDup; [exact Hf |].
  apply fmap_sublist, slice_sublist.
Qed.

Lemma pageDocs_distinct_witness :
  NoDup (__id <$> pageDocs by_length (run by_length (initial []) browsing)).
Proof.
  apply (pageDocs_distinct by_length). by exists [], browsing.
Defined.

Lemma filtered_app_unsorted (lc : string → string → Z) (docs added : list Doc)
    (lang yearFrom yearTo sort : string) :
  sort ∉ ["title"; "year-asc"; "year-desc"] →
  filtered lc (docs ++ added) lang yearFrom yearTo sort
  = filtered lc docs lang yearFrom yearTo sort
    ++ filtered lc added lang yearFrom yearTo sort.
Proof.
  intros Hsort. rewrite !filtered_unsorted by done. apply filter_app.
Qed.

(** [X11] In every state the application can reach, when the sort order is
    [relevance] (or any value that is none of the three sorted orders) and
    the visible page is full, the settling of a fetch leaves the visible
    page as it is: what a load-more brings comes after it. *)
Theorem pageDocs_kept_by_fetch (lc : string → string → Z) (s : AppState)
    (p : Z) (o : FetchOutcome) :
  reachable lc s →
  sort s ∉ ["title"; "year-asc"; "year-desc"] →
  uiPage s * PER_PAGE ≤ Z.of_nat (length (filteredOf lc s)) →
  pageDocs lc (fetchPage_settle p o s) = pageDocs lc s.
Proof.
  intros Hs Hsort Hfull.
  apply reachable_invariant in Hs as [Hnd [Hlo _]].
  destruct o as [f|data]; [done |].
  unfold pageDocs, filteredOf in *. simpl.
  unfold mergeDocs. rewrite (uniqueBy_app_added __id) by exact Hnd.
  rewrite filtered_app_unsorted by done.
  set (shown := filtered lc (docs s) (lang s) (yearFrom s) (yearTo s) (sort s)) in *.
  rewrite !pageDocsOf_window by done.
  unfold PER_PAGE in *.
  rewrite drop_app_le by lia.
  rewrite take_app_le; [done |]. rewrite length_drop. lia.
Qed.

Lemma pageDocs_kept_by_fetch_witness :
  pageDocs by_length
    (fetchPage_settle 2 (Body zero_total) (run by_length (initial []) browsing))
  = pageDocs by_length (run by_length (initial []) browsing).
Proof.
  apply pageDocs_kept_by_fetch.
  - by exists [], browsing.
  - apply (bool_decide_unpack _). by vm_compute.
  - by vm_compute.
Defined.

(** [X12] In every state the application can reach with results shown, Next
    followed by Previous comes back to the same state when there is a next
    page, and Previous followed by Next does when there is a previous
    page. *)
Theorem next_previous_round_trip (lc : string → string → Z) (s : AppState) :
  reachable lc s → docs s ≠ [] →
  (uiPage s < totalPages lc s → onPrevious (onNext lc s) = s)
  ∧ (1 < uiPage s → onNext lc (onPrevious s) = s).
Proof.
  intros Hs Hdocs. apply reachable_invariant in Hs as [_ [Hlo Hhi]].
  split; intros Hroom.
  - unfold onNext. rewrite decide_False by (intros [? | ?]; [done | lia]).
    unfold onPrevious. simpl.
    rewrite decide_False by (intros [? | ?]; [done | lia]).
    destruct s. unfold setUiPage. simpl in *. f_equal. lia.
  - unfold onPrevious. rewrite decide_False by (intros [? | ?]; [done | lia]).
    unfold onNext.
    change (totalPages lc (setUiPage _ s)) with (totalPages lc s).
    simpl.
    rewrite decide_False by (intros [? | ?]; [done | lia]).
    change (totalPages lc (setUiPage _ s)) with (totalPages lc s).
    destruct s. unfold setUiPage. simpl in *. f_equal. lia.
Qed.

Lemma next_previous_round_trip_witness :
  onPrevious (onNext by_length (run by_length (initial []) browsing))
  = run by_length (initial []) browsing
  ∧ onNext by_length (onPrevious (run by_length (initial []) browsing))
    = run by_length (initial []) browsing.
Proof.
  destruct (next_previous_round_trip by_length
              (run by_length (initial []) browsing)) as [Hnp Hpn].
  - by exists [], browsing.
  - by vm_compute.
  - split; [apply Hnp | apply Hpn]; by vm_compute.
Defined.

(** ** The language menu *)

Lemma ascii_compare_lt_trans (a b c : ascii) :
  Ascii.compare a b = Lt → Ascii.compare b c = Lt → Ascii.compare a c = Lt.
Proof.
  unfold Ascii.compare. rewrite !N.compare_lt_iff. lia.
Qed.

(** The order of [String.compare] is transitive. *)
Lemma string_compare_trans (a b c : string) :
  String.compare a b ≠ Gt → String.compare b c ≠ Gt → String.compare a c ≠ Gt.
Proof.
  revert b c. induction a as [|x a IH]; intros [|y b] [|z c]; simpl; try done.
  destruct (Ascii.compare x y) eqn:Hxy; [| | done].
  - apply Ascii.compare_eq_iff in Hxy as ->.
    destruct (Ascii.compare y z); [apply IH | done | done].
  - destruct (Ascii.compare y z) eqn:Hyz; [| | done].
    + apply Ascii.compare_eq_iff in Hyz as <-. by rewrite Hxy.
    + by rewrite (ascii_compare_lt_trans x y z).
Qed.

Lemma compare_default_le (a b : string) :
  compare_default a b ≤ 0 ↔ String.compare a b ≠ Gt.
Proof. unfold compare_default. by destruct (String.compare a b). Qed.

#[global] Instance compare_default_trans :
  Transitive (λ a b, compare_default a b ≤ 0).
Proof.
  intros a b c. rewrite !compare_default_le. apply string_compare_trans.
Qed.

#[global] Instance compare_default_total :
  Total (λ a b, compare_default a b ≤ 0).
Proof.
  intros a b. rewrite !compare_default_le, (String.compare_antisym a b).
  destruct (String.compare b a); simpl; auto.
Qed.

Lemma uniqueBy_id_elem {A} `{Countable A} (l : list A) (x : A) :
  x ∈ uniqueBy l id ↔ x ∈ l.
Proof.
  split.
  - by intros [? _]%uniqueBy_from_elem.
  - intros Hx%(uniqueBy_keys id). by rewrite list_fmap_id in Hx.
Qed.

(** [X13] The language menu offers a code exactly when a record of the
    accumulated list has it in its language list; it offers no code twice,
    and it lists the codes in ascending order. *)
Theorem languagesAvailable_spec (docs : list Doc) :
  (∀ c, c ∈ languagesAvailable docs
        ↔ ∃ d, d ∈ docs ∧ c ∈ default [] (language d))
  ∧ NoDup (languagesAvailable docs)
  ∧ StronglySorted (λ a b, compare_default a b ≤ 0) (languagesAvailable docs).
Proof.
  unfold languagesAvailable. split; [| split].
  - intros c. rewrite sortBy_perm, uniqueBy_id_elem, list_elem_of_bind.
    naive_solver.
  - rewrite sortBy_perm.
    rewrite <- (list_fmap_id (uniqueBy _ id)). apply uniqueBy_NoDup.
  - by apply (sortBy_sorted compare_default (λ a b, compare_default a b ≤ 0)).
Qed.

(** The menu of the three sample records. *)
Example languagesAvailable_sample :
  languagesAvailable [dune; emma; ulysses] = ["eng"; "fre"].
Proof. reflexivity. Qed.

(** ** Favorites, continued *)

Lemma isFav_ext (a b : Doc) (l1 l2 : list Doc) :
  (isFav a l1 = true ↔ isFav b l2 = true) → isFav a l1 = isFav b l2.
Proof. apply Bool.eq_iff_eq_true. Qed.

(** [X14] A toggle flips whether the record is a favorite, and changes it
    for no record with another identifier. *)
Theorem toggleFav_flips (doc : Doc) (favs : list Doc) :
  isFav doc (toggleFav doc favs) = negb (isFav doc favs)
  ∧ ∀ other, __id other ≠ __id doc →
      isFav other (toggleFav doc favs) = isFav other favs.
Proof.
  destruct (isFav doc favs) eqn:Hfav.
  - rewrite (toggleFav_present doc favs Hfav). split; [apply isFav_removed |].
    intros other Hne. apply isFav_ext. rewrite !isFav_true.
    setoid_rewrite list_elem_of_filter. split.
    + intros (x & [_ Hx] & Hid). eauto.
    + intros (x & Hx & Hid). exists x. split; [| done].
      split; [congruence | done].
  - rewrite (toggleFav_absent doc favs Hfav). split; [apply isFav_snoc |].
    intros other Hne. apply isFav_ext. rewrite !isFav_true.
    setoid_rewrite elem_of_app. split.
    + intros (x & [Hx | Hx] & Hid); [eauto |].
      apply list_elem_of_singleton in Hx as ->. done.
    + intros (x & Hx & Hid). eauto.
Qed.

Lemma toggleFav_flips_witness :
  isFav emma (toggleFav dune [favOf emma; favOf dune])
  = isFav emma [favOf emma; favOf dune].
Proof.
  refine (proj2 (toggleFav_flips dune [favOf emma; favOf dune]) emma _).
  by vm_compute.
Defined.

Lemma toggleFav_distinct (doc : Doc) (favs : list Doc) :
  NoDup (__id <$> favs) → NoDup (__id <$> toggleFav doc favs).
Proof.
  intros Hnd. destruct (isFav doc favs) eqn:Hfav.
  - rewrite (toggleFav_present doc favs Hfav).
    eapply sublist_NoDup; [exact Hnd |]. apply fmap_sublist, sublist_filter.
  - rewrite (toggleFav_absent doc favs Hfav), fmap_app.
    apply NoDup_app. split; [done |]. split; [| apply NoDup_singleton].
    intros id (x & -> & Hx)%list_elem_of_fmap Hin.
    apply list_elem_of_singleton in Hin.
    rewrite isFav_false in Hfav. by apply (Hfav x).
Qed.

Lemma removeFav_distinct (doc : Doc) (favs : list Doc) :
  NoDup (__id <$> favs) → NoDup (__id <$> removeFav doc favs).
Proof.
  intros Hnd. eapply sublist_NoDup; [exact Hnd |].
  apply fmap_sublist, sublist_filter.
Qed.

Lemma step_favs_distinct (lc : string → string → Z) (s : AppState) (e : Event) :
  NoDup (__id <$> favs s) → NoDup (__id <$> favs (step lc s e)).
Proof.
  intros Hnd. destruct e; simpl; try done.
  - by case_decide.
  - by case_decide.
  - by destruct o.
  - unfold onPrevious. by case_decide.
  - unfold onNext. by case_decide.
  - by apply toggleFav_distinct.
  - by apply removeFav_distinct.
Qed.

(** [X15] When the favorites read from local storage have pairwise distinct
    identifiers, so have the favorites of every state the application
    reaches from there: no toggle and no removal brings in a duplicate. *)
Theorem favs_stay_distinct (lc : string → string → Z) (stored : list Doc)
    (es : list Event) :
  NoDup (__id <$> stored) →
  NoDup (__id <$> favs (run lc (initial stored) es)).
Proof.
  intros Hnd.
  change stored with (favs (initial stored)) in Hnd.
  revert Hnd. generalize (initial stored).
  induction es as [|e es IH]; intros s Hnd; [done |].
  simpl. by apply IH, step_favs_distinct.
Qed.

Lemma favs_stay_distinct_witness :
  NoDup (__id <$> favs (run by_length (initial [favOf emma])
                          [ToggleFavorite dune; ToggleFavorite emma;
                           ToggleFavorite ulysses; RemoveFavorite dune])).
Proof.
  apply favs_stay_distinct. apply (bool_decide_unpack _). by vm_compute.
Defined.

(** [X16] Remove changes the list exactly when the record is a favorite; a
    second Remove changes nothing; and Remove after a toggle gives what
    Remove alone gives. *)
Theorem removeFav_spec (doc : Doc) (favs : list Doc) :
  (removeFav doc favs = favs ↔ isFav doc favs = false)
  ∧ removeFav doc (removeFav doc favs) = removeFav doc favs
  ∧ removeFav doc (toggleFav doc favs) = removeFav doc favs.
Proof.
  assert (Hidem : removeFav doc (removeFav doc favs) = removeFav doc favs)
    by apply filter_other_ids, isFav_removed.
  split; [| split; [exact Hidem |]].
  - split; [| apply filter_other_ids].
    intros Heq. rewrite <- Heq. apply isFav_removed.
  - destruct (isFav doc favs) eqn:Hfav.
    + by rewrite (toggleFav_present doc favs Hfav).
    + rewrite (toggleFav_absent doc favs Hfav). unfold removeFav.
      rewrite filter_app, filter_cons_False by (intros Hne; by apply Hne).
      apply app_nil_r.
Qed.

(** ** Covers and links *)

(** [X17] A record has a cover URL exactly when its cover identifier is
    present and not 0, or its first ISBN is present and not empty; the cover
    identifier is used when both are there; a missing record has none. *)
Theorem coverURL_spec (doc : Doc) :
  coverURL None = None
  ∧ (coverURL (Some doc) = None
     ↔ (cover_i doc = None ∨ cover_i doc = Some 0)
       ∧ (isbn doc = None ∨ isbn doc = Some [] ∨ ∃ r, isbn doc = Some ("" :: r)))
  ∧ ∀ c, cover_i doc = Some c → c ≠ 0 →
      coverURL (Some doc)
      = Some ("https://covers.openlibrary.org/b/id/" +:+ pretty c +:+ "-M.jpg").
Proof.
  split; [done |]. split.
  - unfold coverURL. simpl.
    destruct (cover_i doc) as [c|]; [destruct (decide (c = 0)) as [-> | Hc] |];
      simpl; try (split; [done | intros [[? | [= ?]] _]; done]);
      destruct (isbn doc) as [[|i r]|]; simpl;
      try destruct (decide (i = "")) as [-> | Hi];
      split; try done; eauto 6;
      intros [_ [? | [? | [r' [= ? ?]]]]]; done.
  - intros c Hc Hne. unfold coverURL. simpl. rewrite Hc. simpl.
    by rewrite decide_False.
Qed.

Lemma coverURL_spec_witness :
  coverURL (Some hobbit)
  = Some "https://covers.openlibrary.org/b/id/6979861-M.jpg".
Proof.
  refine (proj2 (proj2 (coverURL_spec hobbit)) 6979861 eq_refl _).
  by vm_compute.
Defined.

(** [X18] The object stored for a favorite shows what the record shows: the
    same cover, the same link, the same author line, title and year, and
    it has the record's identifier; projecting it again changes nothing. *)
Theorem favOf_shows_the_same (doc : Doc) :
  coverURL (Some (favOf doc)) = coverURL (Some doc)
  ∧ openLibraryWorkURL (Some (favOf doc)) = openLibraryWorkURL (Some doc)
  ∧ authorLine (favOf doc) = authorLine doc
  ∧ title (favOf doc) = title doc
  ∧ first_publish_year (favOf doc) = first_publish_year doc
  ∧ __id (favOf doc) = __id doc
  ∧ favOf (favOf doc) = favOf doc.
Proof. by destruct doc. Qed.

(** ** Filtering, continued *)

(** [X19] With no language selected and both year fields empty, the
    filtered list still leaves out the records whose publish year is
    negative or above 9999: it holds the records of the accumulated list
    with a year from 0 to 9999, a missing year counting as 0. *)
Theorem filtered_no_filter (lc : string → string → Z) (docs : list Doc)
    (sort : string) :
  ∀ d, d ∈ filtered lc docs "" "" "" sort
       ↔ d ∈ docs ∧ 0 ≤ default 0 (first_publish_year d) ≤ 9999.
Proof.
  intros d. rewrite filtered_Permutation. unfold matching.
  rewrite list_elem_of_filter. unfold passes_language, passes_year. simpl.
  unfold publish_year. tauto.
Qed.

(** A record dated 10000 is not shown, whatever the filters. *)
Example filtered_hides_year_10000 :
  filtered by_length [book "k" "Far Future" (Some 10000) ["eng"]] "" "" ""
    "relevance" = [].
Proof. reflexivity. Qed.

(** [X20] When a year field does not start with a number, or the lower
    bound read is above the upper one, the filtered list is empty. *)
Theorem filtered_empty_range (lc : string → string → Z) (docs : list Doc)
    (lang yearFrom yearTo sort : string) :
  match parseInt (str_or yearFrom "0"), parseInt (str_or yearTo "9999") with
  | Some lo, Some hi => hi < lo
  | _, _ => True
  end →
  filtered lc docs lang yearFrom yearTo sort = [].
Proof.
  intros Hrange. apply Permutation_nil_r.
  rewrite filtered_Permutation. unfold matching.
  induction docs as [|d docs IH]; [done |].
  rewrite filter_cons_False; [exact IH |].
  intros [_ Hy]. apply year_test_passes_year in Hy as [Hlo Hhi].
  destruct (parseInt (str_or yearFrom "0")), (parseInt (str_or yearTo "9999"));
    simpl in *; try done. lia.
Qed.

Lemma filtered_empty_range_witness :
  filtered by_length [dune; emma; ulysses] "" "1960" "1950" "relevance" = []
  ∧ filtered by_length [dune; emma; ulysses] "" "" "soon" "title" = [].
Proof.
  split.
  - apply filtered_empty_range. by vm_compute.
  - apply filtered_empty_range. by vm_compute.
Defined.

(** ** Local storage *)

Section LocalStorageFacts.
Context {A : Type}.
Variable JSON_stringify : A → string.
Variable JSON_parse : string → option A.

(** [X21] When local storage can be used and [val] is a value that
    [JSON.parse] reads back from what [JSON.stringify] writes, the value
    [useLocalStorage] starts with after its effect has run for [val] is
    [val], whatever the default; and the effect changes what is read under
    no other key. *)
Theorem useLocalStorage_round_trip (st : Storage) (key : string) (val : A) :
  denied st = false →
  JSON_stringify val ≠ "" →
  JSON_parse (JSON_stringify val) = Some val →
  (∀ initial,
     useLocalStorage_init JSON_parse
       (useLocalStorage_effect JSON_stringify st key val) key initial = val)
  ∧ ∀ key' initial, key' ≠ key →
      useLocalStorage_init JSON_parse
        (useLocalStorage_effect JSON_stringify st key val) key' initial
      = useLocalStorage_init JSON_parse st key' initial.
Proof.
  intros Hok Hne Hrt. unfold useLocalStorage_init, useLocalStorage_effect.
  rewrite Hok. simpl. split.
  - intros initial. rewrite lookup_insert_eq.
    rewrite decide_False by done. by rewrite Hrt.
  - intros key' initial Hkey. by rewrite lookup_insert_ne.
Qed.

(** [X22] When local storage cannot be used, or holds nothing, the empty
    string, or text that does not parse under the key, [useLocalStorage]
    starts with the default; and when it cannot be used the effect leaves it
    as it is. *)
Theorem useLocalStorage_fallback (st : Storage) (key : string) (initial val : A) :
  (denied st = true
   ∨ items st !! key = None
   ∨ items st !! key = Some ""
   ∨ (∃ raw, items st !! key = Some raw ∧ JSON_parse raw = None) →
   useLocalStorage_init JSON_parse st key initial = initial)
  ∧ (denied st = true → useLocalStorage_effect JSON_stringify st key val = st).
Proof.
  unfold useLocalStorage_init, useLocalStorage_effect. split.
  - intros [-> | [-> | [-> | (raw & -> & Hraw)]]]; try done;
      destruct (denied st); try done.
    case_decide; [done |]. by rewrite Hraw.
  - by intros ->.
Qed.
End LocalStorageFacts.

Lemma useLocalStorage_round_trip_witness :
  useLocalStorage_init parseInt
    (useLocalStorage_effect pretty {| items := ∅; denied := false |}
       "bookfinder:count" 12) "bookfinder:count" 0
  = 12.
Proof.
  refine (proj1 (useLocalStorage_round_trip pretty parseInt
                   {| items := ∅; denied := false |} "bookfinder:count" 12
                   eq_refl _ eq_refl) 0).
  by vm_compute.
Defined.

Lemma useLocalStorage_fallback_witness :
  useLocalStorage_init parseInt
    {| items := {["bookfinder:count" := "twelve"]}; denied := false |}
    "bookfinder:count" 7
  = 7.
Proof.
  refine (proj1 (useLocalStorage_fallback pretty parseInt
                   {| items := {["bookfinder:count" := "twelve"]};
                      denied := false |} "bookfinder:count" 7 0) _).
  right. right. right. exists "twelve". split; [| done].
  apply lookup_singleton_eq.
Defined.

(** ** Class names *)

Lemma string_app_assoc (a b c : string) : (a +:+ b) +:+ c = a +:+ (b +:+ c).
Proof.
  induction a as [|x a IH]; [done |].
  change (String x ((a +:+ b) +:+ c) = String x (a +:+ (b +:+ c))).
  by rewrite IH.
Qed.

Lemma string_app_empty (a b : string) : a +:+ b = "" → a = "".
Proof. by destruct a. Qed.

Lemma join_cons (sep x : string) (l : list string) :
  l ≠ [] → join sep (x :: l) = x +:+ sep +:+ join sep l.
Proof. by destruct l. Qed.

Lemma join_app (sep : string) (l1 l2 : list string) :
  l1 ≠ [] → l2 ≠ [] →
  join sep (l1 ++ l2) = join sep l1 +:+ sep +:+ join sep l2.
Proof.
  intros H1 H2. induction l1 as [|x [|y r] IH]; [done | |].
  - by apply join_cons.
  - change ((x :: y :: r) ++ l2) with (x :: ((y :: r) ++ l2)).
    rewrite (join_cons sep x ((y :: r) ++ l2)) by done.
    rewrite IH by done. rewrite (join_cons sep x (y :: r)) by done.
    by rewrite !string_app_assoc.
Qed.

(** Joining strings none of which is empty gives the empty string for the
    empty list only. *)
Lemma join_empty (sep : string) (l : list string) :
  Forall (λ x, x ≠ "") l → join sep l = "" → l = [].
Proof.
  intros Hne. destruct l as [|x [|y r]]; [done | |];
    apply Forall_cons in Hne as [Hx _].
  - done.
  - rewrite join_cons by done. by intros ?%string_app_empty.
Qed.

Lemma omap_truthy_class_nonempty (xs : list (option string)) :
  Forall (λ x, x ≠ "") (omap truthy_class xs).
Proof.
  apply Forall_forall. intros s (x & _ & Hx)%list_elem_of_omap.
  destruct x as [t|]; [| done]. simpl in Hx.
  destruct (decide (t = "")); congruence.
Qed.

(** [X23] [cls] gives the empty string exactly when it is given no
    non-empty string, and a class list built by [cls] can be passed to [cls]
    again: the result is that of passing all the arguments at once. *)
Theorem cls_nests (xs ys : list (option string)) :
  (cls xs = "" ↔ ∀ x, x ∈ xs → truthy_class x = None)
  ∧ cls [Some (cls xs); Some (cls ys)] = cls (xs ++ ys).
Proof.
  split.
  - unfold cls. split.
    + intros Hnil%join_empty; [| apply omap_truthy_class_nonempty].
      intros x Hx. destruct (truthy_class x) as [s|] eqn:Hs; [| done].
      assert (s ∈ omap truthy_class xs) as Hin
        by (apply list_elem_of_omap; eauto).
      rewrite Hnil in Hin. by apply elem_of_nil in Hin.
    + intros Hall. assert (omap truthy_class xs = []) as ->; [| done].
      apply elem_of_nil_inv. intros s (x & Hx & Hs)%list_elem_of_omap.
      rewrite (Hall x Hx) in Hs. done.
  - unfold cls. rewrite omap_app.
    pose proof (omap_truthy_class_nonempty xs) as Ha.
    pose proof (omap_truthy_class_nonempty ys) as Hb.
    set (a := omap truthy_class xs) in *.
    set (b := omap truthy_class ys) in *.
    simpl.
    destruct (decide (join " " a = "")) as [Hja | Hja];
      destruct (decide (join " " b = "")) as [Hjb | Hjb]; simpl.
    + apply join_empty in Hja as ->; [| done].
      by apply join_empty in Hjb as ->.
    + by apply join_empty in Hja as ->.
    + apply join_empty in Hjb as ->; [| done]. by rewrite app_nil_r.
    + symmetry. apply join_app; by intros ->.
Qed.

(** ** The local page number, continued *)

(** [X24] In every state the application can reach, the settling of a fetch
    does not lower the total-page count, whatever the sort order and the
    answer: the local page number stays within range. *)
Theorem totalPages_grows (lc : string → string → Z) (s : AppState) (p : Z)
    (o : FetchOutcome) :
  reachable lc s →
  totalPages lc s ≤ totalPages lc (fetchPage_settle p o s).
Proof.
  intros [Hnd _]%reachable_invariant. destruct o as [f|data]; [done |].
  unfold totalPages, filteredOf. simpl. unfold mergeDocs.
  rewrite (uniqueBy_app_added __id) by exact Hnd.
  apply totalPagesOf_mono; [done |]. apply filtered_length_app.
Qed.

Lemma totalPages_grows_witness :
  totalPages by_length (run by_length (initial []) session)
  ≤ totalPages by_length
      (fetchPage_settle 2
         (Body {| data_docs := Some shelf; data_numFound := None |})
         (run by_length (initial []) session)).
Proof.
  apply totalPages_grows. by exists [], session.
Defined.
